(** * CardioScan LVNC detector: the scan signal pipeline of [lvnc-app.py]

    A shallow embedding of the computational part of the Streamlit script:
    the synthesis of the time index and of the signal (lines 121-137), the
    streaming loop that reveals the signal in one hundred steps (lines
    140-185) and the risk score with its two classification bands (lines
    198-267).

    Numbers.  Python integers are [Z].  Python floats are read in two
    ways.  The exact reading takes them as rationals [Q] and computes
    without rounding; it serves the statements that rounding cannot
    disturb (orderings, bounds with a margin, lengths, which terms a
    sample is made of).  The binary64 reading rounds every operation to
    the nearest representable number ([fl], [B64], [RiskScorer64],
    [synthesize64]); it serves the statements that compare the computed
    numbers with exact values.  The library calls ([np.linspace],
    [np.random.*], [np.sin]) are modelled by their documented contract,
    each next to the place the script calls it. *)

From Stdlib Require Import String Bool ZArith QArith Qround Qpower Qabs Lqa.
From Stdlib Require Import List Lia Morphisms Floats.
Import ListNotations.

#[local] Open Scope Z_scope.

(** ** Python primitives used by the script *)

(** [int(x)] on a number: truncation toward zero. *)
Definition py_int (x : Q) : Z := Z.quot (Qnum x) (Zpos (Qden x)).

(** [range(n)]: the integers [0, 1, ..., n-1] (empty when [n <= 0]). *)
Definition py_range (n : Z) : list Z := map Z.of_nat (seq 0 (Z.to_nat n)).

(** ** Binary64 arithmetic

    A Python float is an IEEE-754 binary64 number, and each of [+], [-],
    [*] and [/] on floats returns the representable number nearest to the
    exact result, ties going to the even significand.  [fl] is that
    rounding on the rationals: 53 significant bits and an unbounded
    exponent.  It agrees with binary64 on every result that is zero or
    whose magnitude lies between 2^-1022 and 2^1024, which covers every
    value the statements below range over; overflow, subnormal numbers,
    infinities and NaN are outside the model.  A float is carried as the
    rational number it denotes. *)

Definition pow2 (k : Z) : Q := (2 ^ k)%Q.

(** [floor (log2 x)] of a positive [x]. *)
Definition ilog2 (x : Q) : Z :=
  let k := Z.log2 (Qnum x) - Z.log2 (Zpos (Qden x)) in
  if Qle_bool (pow2 k) x then k else k - 1.

(** The nearest integer, ties to even. *)
Definition rne (s : Q) : Z :=
  let f := Qfloor s in
  match Qcompare (s - inject_Z f) (1 # 2) with
  | Lt => f
  | Gt => f + 1
  | Eq => if Z.even f then f else f + 1
  end.

(** A positive [x] scaled to a significand in [2^52, 2^53), rounded, and
    scaled back. *)
Definition round_pos (x : Q) : Q :=
  let e := ilog2 x - 52 in (inject_Z (rne (x / pow2 e)) * pow2 e)%Q.

Definition fl (x : Q) : Q :=
  match Qcompare x 0 with
  | Eq => 0%Q
  | Gt => round_pos x
  | Lt => (- round_pos (- x))%Q
  end.

(** The relative error of one rounding, 2^-53. *)
Definition u53 : Q := pow2 (-53).

Module B64.

(** A float literal, an int converted to float, and the four operations. *)
Definition lit (x : Q) : Q := fl x.
Definition of_int (z : Z) : Q := fl (inject_Z z).
Definition add (x y : Q) : Q := fl (x + y).
Definition sub (x y : Q) : Q := fl (x - y).
Definition mul (x y : Q) : Q := fl (x * y).
Definition div (x y : Q) : Q := fl (x / y).

End B64.

(** The kernel's own binary64 numbers read as rationals, to compare [fl]
    with at concrete points. *)
Definition SF2Q (f : spec_float) : Q :=
  match f with
  | S754_finite s m e =>
      let v := (inject_Z (Zpos m) * pow2 e)%Q in if s then (- v)%Q else v
  | _ => 0%Q
  end.

Definition float_to_Q (f : float) : Q := SF2Q (Prim2SF f).

(** ** The random source

    The script draws from NumPy's global generator.  It is modelled as a
    tape of raw integer words read at increasing positions; each
    distribution maps the word it reads into its documented range. *)

Definition tape : Type := nat -> Z.

(** [np.random.rand()] and [random_sample]: a float of the half-open
    interval [0, 1), a 53-bit fraction. *)
Definition random_sample (w : Z) : Q :=
  inject_Z (w mod 2 ^ 53) / inject_Z (2 ^ 53).

(** [np.random.uniform(low, high)]: [low + (high - low) * random_sample()]. *)
Definition uniform (low high : Q) (w : Z) : Q :=
  (low + (high - low) * random_sample w)%Q.

(** [np.random.randint(low, high)]: an integer from [low] (inclusive) to
    [high] (exclusive); NumPy raises [ValueError] when [low >= high]. *)
Definition randint (low high : Z) (w : Z) : option Z :=
  if low <? high then Some (low + w mod (high - low)) else None.

(** ** Signal synthesis (lines 121-137) *)

Section Synthesizer.

(** [np.sin], [np.pi] and the map from a raw word to a standard normal
    sample are kept abstract: no statement below depends on them. *)
Variable np_sin : Q -> Q.
Variable np_pi : Q.
Variable gaussian : Z -> Q.

(** [np.random.randn(n)] read at position [k] of the tape. *)
Definition randn (tp : tape) (k : nat) (n : Z) : list Q :=
  map (fun j => gaussian (tp j)) (seq k (Z.to_nat n)).

(** [np.zeros(n)]. *)
Definition zeros (n : Z) : list Q := repeat 0%Q (Z.to_nat n).

(** [np.linspace(start, stop, num, endpoint=False)]: NumPy computes
    [step = (stop - start) / num] and returns [arange(0, num) * step +
    start]; a negative [num] raises [ValueError]. *)
Definition linspace (start stop : Q) (num : Z) : option (list Q) :=
  if num <? 0 then None
  else
    let step := ((stop - start) / inject_Z num)%Q in
    Some (map (fun i => (inject_Z i * step + start)%Q) (py_range num)).

(** Element-wise arithmetic on arrays of one length. *)
Definition vadd (a b : list Q) : list Q :=
  map (fun p => (fst p + snd p)%Q) (combine a b).
Definition vmul (a b : list Q) : list Q :=
  map (fun p => (fst p * snd p)%Q) (combine a b).
Definition vscale (c : Q) (a : list Q) : list Q := map (Qmult c) a.

(** The mask [(t > c)], which multiplies as 1 or 0. *)
Definition after (c : Q) (t : list Q) : list Q :=
  map (fun x => if Qlt_le_dec c x then 1%Q else 0%Q) t.

(** [np.sin(2 * np.pi * f * t)]. *)
Definition tone (f : Q) (t : list Q) : list Q :=
  map (fun x => np_sin (2 * np_pi * f * x)%Q) t.

Record signal_buffer : Type := mkBuffer {
  samples : Z;
  t : list Q;
  full_signal : list Q
}.

(** Line 123: [samples = int(duration * sample_rate)], the product taken
    exactly; this is the code's count when [duration] is an int, as in the
    script.  [sample_count64] rounds the product of a float [duration]. *)
Definition sample_count (sample_rate : Z) (duration : Q) : Z :=
  py_int (duration * inject_Z sample_rate).

(** Lines 121-137, reading the tape from position [k]; the result carries
    the position after the last draw. *)
Definition synthesize (sample_rate : Z) (duration : Q) (tp : tape) (k : nat)
  : option (signal_buffer * nat) :=
  let samples := sample_count sample_rate duration in
  match linspace 0 duration samples with
  | None => None
  | Some t =>
    let n := Z.to_nat samples in
    let base_signal := vscale 0.5 (tone 25 t) in
    let noise := vscale 0.1 (randn tp k samples) in
    let k1 := (k + n)%nat in
    let '(abnormality, k2) :=
      if Qlt_le_dec 0.6 (random_sample (tp k1)) then
        let a := vmul (vscale 0.3 (tone 150 t)) (after 5 t) in
        let b := vmul (vscale 0.2 (randn tp (S k1) samples)) (after 7 t) in
        (vadd a b, (S k1 + n)%nat)
      else (zeros samples, S k1) in
    Some (mkBuffer samples t (vadd (vadd base_signal noise) abnormality), k2)
  end.

End Synthesizer.

(** ** Signal synthesis in binary64 (lines 121-137)

    The same lines with every float operation rounded by [fl].  [np_sin]
    and [gaussian] stand for library functions that return floats. *)

Section Synthesizer64.

Variable np_sin : Q -> Q.
Variable np_pi : Q.
Variable gaussian : Z -> Q.

(** Line 123: [samples = int(duration * sample_rate)] for a float
    [duration].  (For an int [duration], as the script's 10, Python
    multiplies integers; both give the same count below 2^53.) *)
Definition sample_count64 (sample_rate : Z) (duration : Q) : Z :=
  py_int (B64.mul duration (B64.of_int sample_rate)).

(** [np.linspace(start, stop, num, endpoint=False)] as NumPy computes it:
    [delta = stop - start], [step = delta / num], then [arange(0, num) *
    step + start]; when [step] is zero NumPy divides first, [arange(0,
    num) / num * delta + start]. *)
Definition linspace64 (start stop : Q) (num : Z) : option (list Q) :=
  if num <? 0 then None
  else
    let delta := B64.sub stop start in
    let step := B64.div delta (B64.of_int num) in
    Some (map (fun i =>
                 let y :=
                   if Qeq_bool step 0
                   then B64.mul (B64.div (B64.of_int i) (B64.of_int num)) delta
                   else B64.mul (B64.of_int i) step in
                 B64.add y start)
              (py_range num)).

(** An element-wise operation on two arrays of one length. *)
Definition vzip (f : Q -> Q -> Q) (a b : list Q) : list Q :=
  map (fun p => f (fst p) (snd p)) (combine a b).

(** [np.sin(2 * np.pi * f * t)]: the scalar factors are multiplied first,
    left to right. *)
Definition tone64 (f : Z) (t : list Q) : list Q :=
  let w := B64.mul (B64.mul (B64.of_int 2) np_pi) (B64.of_int f) in
  map (fun x => np_sin (B64.mul w x)) t.

Definition synthesize64 (sample_rate : Z) (duration : Q) (tp : tape) (k : nat)
  : option (signal_buffer * nat) :=
  let samples := sample_count64 sample_rate duration in
  match linspace64 0 duration samples with
  | None => None
  | Some t =>
    let n := Z.to_nat samples in
    let base_signal := map (B64.mul (B64.lit 0.5)) (tone64 25 t) in
    let noise := map (B64.mul (B64.lit 0.1)) (randn gaussian tp k samples) in
    let k1 := (k + n)%nat in
    let '(abnormality, k2) :=
      if Qlt_le_dec (B64.lit 0.6) (random_sample (tp k1)) then
        let a := vzip B64.mul (map (B64.mul (B64.lit 0.3)) (tone64 150 t))
                      (after 5 t) in
        let b := vzip B64.mul
                      (map (B64.mul (B64.lit 0.2))
                           (randn gaussian tp (S k1) samples))
                      (after 7 t) in
        (vzip B64.add a b, (S k1 + n)%nat)
      else (zeros samples, S k1) in
    Some (mkBuffer samples t
                   (vzip B64.add (vzip B64.add base_signal noise) abnormality),
          k2)
  end.

End Synthesizer64.

(** ** The streaming loop (lines 140-185) *)

Module Streamer.

(** Line 146: [chunk_size = int(samples/100)], a true division followed
    by a truncation. *)
Definition chunk_size (samples : Z) : Z :=
  py_int (inject_Z samples / inject_Z 100).

(** Line 147: [display_samples = min((i+1)*chunk_size, samples)]. *)
Definition display_samples (samples i : Z) : Z :=
  Z.min ((i + 1) * chunk_size samples) samples.

(** What one run of the loop has shown so far: the last value given to
    the progress bar, the end-index of every waveform plot (oldest
    first), and the length of every prefix handed to [signal.welch]. *)
Record display : Type := mkDisplay {
  progress : Z;
  windows : list Z;
  spectra : list Z
}.

Definition blank : display := mkDisplay 0 [] [].

(** One iteration of the body of [for i in range(100)]. *)
Definition step (samples : Z) (d : display) (i : Z) : display :=
  let shown := display_samples samples i in
  mkDisplay (i + 1)
            (windows d ++ [shown])
            (if i mod 5 =? 0 then spectra d ++ [shown] else spectra d).

(** The whole loop. *)
Definition scan (samples : Z) : display :=
  fold_left (step samples) (py_range 100) blank.

(** The end-index of the window shown by the last iteration. *)
Definition final_window (samples : Z) : Z := last (windows (scan samples)) 0.

End Streamer.

(** A buffer of [n] samples taken at [sample_rate] Hz, as binary64
    computes it: the signal and the time index have [n] entries each; the
    time index starts at 0; its [i]-th entry is the rounded product of [i]
    and the rounded quotient [1 / sample_rate], which is within a relative
    error of [3 * 2^-53] of [i / sample_rate]; and it is strictly
    increasing. *)
Definition time_index64 (sample_rate n : Z) (buf : signal_buffer) : Prop :=
  samples buf = n /\
  length (full_signal buf) = Z.to_nat n /\
  length (t buf) = Z.to_nat n /\
  (nth 0 (t buf) 0 == 0)%Q /\
  (forall i : nat, (i < Z.to_nat n)%nat ->
     (nth i (t buf) 0
        == B64.mul (inject_Z (Z.of_nat i)) (B64.div 1 (inject_Z sample_rate)))%Q /\
     (Qabs (nth i (t buf) 0 - inject_Z (Z.of_nat i) / inject_Z sample_rate)
        <= (3 # 9007199254740992)
           * (inject_Z (Z.of_nat i) / inject_Z sample_rate))%Q) /\
  (forall i : nat, (S i < Z.to_nat n)%nat ->
     (nth i (t buf) 0 < nth (S i) (t buf) 0)%Q).

(** ** The risk score and its bands (lines 198-267) *)

Module RiskScorer.

(** The weighted sum inside [int( ... )] on lines 203-208, for given
    markers and a given value of the random term, computed exactly;
    [RiskScorer64.raw_score] is the same sum with every operation
    rounded. *)
Definition raw_score (nc_ratio ejection_fraction trabeculation_score : Q)
           (perturbation : Z) : Q :=
  (30 * (nc_ratio - 1.5)
   + 25 * (1 - ejection_fraction / 65)
   + 20 * trabeculation_score
   + inject_Z perturbation)%Q.

(** Lines 203-208: [risk_score = min(100, int( ... ))]. *)
Definition risk_score (nc_ratio ejection_fraction trabeculation_score : Q)
           (perturbation : Z) : Z :=
  Z.min 100
    (py_int (raw_score nc_ratio ejection_fraction trabeculation_score
                       perturbation)).

(** Line 215: the delta text of the "LVNC Risk Score" metric card. *)
Definition metric_card_band (risk_score : Z) : string :=
  if 60 <? risk_score then "High Risk"%string
  else if 40 <? risk_score then "Moderate"%string
  else "Low"%string.

(** Lines 241-267: which of the three recommendation blocks is shown. *)
Inductive recommendation : Type :=
| urgent_referral       (* st.error: high probability of LVNC *)
| moderate_suspicion    (* st.warning *)
| low_probability.      (* st.success *)

Definition recommendation_band (risk_score : Z) : recommendation :=
  if 70 <? risk_score then urgent_referral
  else if 45 <? risk_score then moderate_suspicion
  else low_probability.

(** Lines 212-214: the per-marker advisory texts. *)
Definition nc_ratio_flag (nc_ratio : Q) : string :=
  if Qlt_le_dec 2 nc_ratio then ">2.0 suggests LVNC"%string
  else "Normal"%string.
Definition ejection_fraction_flag (ejection_fraction : Q) : string :=
  if Qlt_le_dec ejection_fraction 40 then "Concern <40%"%string
  else "Normal"%string.
Definition trabeculation_flag (trabeculation_score : Q) : string :=
  if Qlt_le_dec 0.7 trabeculation_score then "High"%string
  else "Normal"%string.

Record diagnosis : Type := mkDiagnosis {
  nc_ratio : Q;
  ejection_fraction : Q;
  trabeculation_score : Q;
  perturbation : Z;
  score : Z;
  card : string;
  advice : recommendation
}.

(** Lines 198-208 with the displays that follow, reading four words of
    the tape from position [k]. *)
Definition analyse (tp : tape) (k : nat) : option (diagnosis * nat) :=
  let nc := uniform 1.5 2.8 (tp k) in
  let ef := uniform 35 65 (tp (1 + k)%nat) in
  let ts := uniform 0.4 0.9 (tp (2 + k)%nat) in
  match randint 0 15 (tp (3 + k)%nat) with
  | None => None
  | Some p =>
    let s := risk_score nc ef ts p in
    Some (mkDiagnosis nc ef ts p s (metric_card_band s)
                      (recommendation_band s),
          (4 + k)%nat)
  end.

End RiskScorer.

(** ** The risk score in binary64 (lines 203-208)

    The weighted sum as Python evaluates it: the int constants are
    converted to float, every operation is rounded, and the sum is
    formed left to right. *)

Module RiskScorer64.

Definition raw_score (nc_ratio ejection_fraction trabeculation_score : Q)
           (perturbation : Z) : Q :=
  B64.add
    (B64.add
       (B64.add
          (B64.mul (B64.of_int 30) (B64.sub nc_ratio (B64.lit 1.5)))
          (B64.mul (B64.of_int 25)
                   (B64.sub (B64.of_int 1)
                            (B64.div ejection_fraction (B64.of_int 65)))))
       (B64.mul (B64.of_int 20) trabeculation_score))
    (B64.of_int perturbation).

Definition risk_score (nc_ratio ejection_fraction trabeculation_score : Q)
           (perturbation : Z) : Z :=
  Z.min 100
    (py_int (raw_score nc_ratio ejection_fraction trabeculation_score
                       perturbation)).

(** The same sum on the kernel's binary64 numbers. *)
Definition raw_score_float (nc_ratio ejection_fraction trabeculation_score : float)
           (perturbation : Z) : float :=
  (30 * (nc_ratio - 1.5)
   + 25 * (1 - ejection_fraction / 65)
   + 20 * trabeculation_score
   + of_uint63 (Uint63.of_Z perturbation))%float.

End RiskScorer64.

(** ** One press of the start button (lines 109-267) *)

Section Script.

Variable np_sin : Q -> Q.
Variable np_pi : Q.
Variable gaussian : Z -> Q.

(** Lines 121-122. *)
Definition sample_rate : Z := 44100.
Definition duration : Q := 10.

Record session : Type := mkSession {
  buffer : signal_buffer;
  shown : Streamer.display;
  result : RiskScorer.diagnosis
}.

(** Synthesis, then the streaming loop over the buffer, then the
    diagnosis, on one tape read from its start.  The calls into plotly and
    [signal.welch] inside the loop are not modelled: [Streamer.scan]
    records the end-index of what each of them is given. *)
Definition start_scan (tp : tape) : option session :=
  match synthesize np_sin np_pi gaussian sample_rate duration tp 0 with
  | None => None
  | Some (buf, k) =>
    match RiskScorer.analyse tp k with
    | None => None
    | Some (r, _) => Some (mkSession buf (Streamer.scan (samples buf)) r)
    end
  end.

End Script.

(** ** Slices and what each plot receives (lines 149-155 and 167) *)

(** The slice [a[:n]]: the first [n] items of [a]; a negative [n] counts
    from the end; the slice is clipped to the array. *)
Definition py_prefix {A : Type} (a : list A) (n : Z) : list A :=
  if n <? 0 then firstn (Z.to_nat (Z.of_nat (length a) + n)) a
  else firstn (Z.to_nat n) a.

Module Plots.

(** The streaming loop stopped after its first [k] iterations. *)
Definition run (samples k : Z) : Streamer.display :=
  fold_left (Streamer.step samples) (py_range k) Streamer.blank.

(** Lines 151-152: the [x] and [y] of the waveform trace of step [i],
    [t[:display_samples]] and [full_signal[:display_samples]]. *)
Definition wave_trace (buf : signal_buffer) (i : Z) : list Q * list Q :=
  let display_samples := Streamer.display_samples (samples buf) i in
  (py_prefix (t buf) display_samples,
   py_prefix (full_signal buf) display_samples).

End Plots.

(** ** The scoring rule as the specification words it

    Section 4.4: [raw = 30*(ncRatio - 1.5) + 25*(1 - ejectionFraction/65) +
    20*trabeculationScore + perturbation], [score = min(100, floor(raw))]. *)

Module Spec.

Definition score (ncRatio ejectionFraction trabeculationScore : Q)
           (perturbation : Z) : Z :=
  Z.min 100
    (Qfloor (30 * (ncRatio - 1.5) + 25 * (1 - ejectionFraction / 65)
             + 20 * trabeculationScore + inject_Z perturbation)%Q).

End Spec.



(** ** Facts about the Python primitives *)

Lemma py_range_length (n : Z) : length (py_range n) = Z.to_nat n.
Proof. unfold py_range. now rewrite length_map, length_seq. Qed.

Lemma py_range_nth (n : Z) (i : nat) :
  (i < Z.to_nat n)%nat -> nth i (py_range n) 0 = Z.of_nat i.
Proof.
  intros Hi. unfold py_range.
  change 0 with (Z.of_nat 0).
  rewrite map_nth, seq_nth by assumption. reflexivity.
Qed.

Lemma py_int_inject_Z (x : Q) (n : Z) : (x == inject_Z n)%Q -> py_int x = n.
Proof.
  destruct x as [a d]. unfold Qeq, py_int. simpl. intros H.
  rewrite Z.mul_1_r in H. subst a.
  apply Z.quot_mul. discriminate.
Qed.

(** On non-negative numbers truncation is the floor, on non-positive ones
    the ceiling; either way it is monotone. *)
Lemma py_int_floor (x : Q) : (0 <= x)%Q -> py_int x = Qfloor x.
Proof.
  destruct x as [a d]. unfold Qle, py_int, Qfloor. simpl. intros H.
  apply Z.quot_div_nonneg; lia.
Qed.

Lemma py_int_ceiling (x : Q) : (x <= 0)%Q -> py_int x = Qceiling x.
Proof.
  destruct x as [a d]. unfold Qle, py_int, Qceiling, Qfloor, Qopp. simpl.
  intros H. rewrite <- (Z.opp_involutive a) at 1.
  rewrite Z.quot_opp_l by discriminate.
  f_equal. apply Z.quot_div_nonneg; lia.
Qed.

Lemma py_int_mono (x y : Q) : (x <= y)%Q -> py_int x <= py_int y.
Proof.
  intros H.
  destruct (Qlt_le_dec x 0) as [Hx|Hx], (Qlt_le_dec y 0) as [Hy|Hy].
  - rewrite !py_int_ceiling by (apply Qlt_le_weak; assumption).
    now apply Qceiling_resp_le.
  - rewrite py_int_ceiling by (apply Qlt_le_weak; assumption).
    rewrite py_int_floor by assumption.
    pose proof (Qceiling_resp_le x 0 (Qlt_le_weak _ _ Hx)) as Hc.
    pose proof (Qfloor_resp_le 0 y Hy) as Hf.
    change (Qceiling 0) with 0 in Hc. change (Qfloor 0) with 0 in Hf. lia.
  - exfalso. apply (Qlt_irrefl 0).
    apply Qle_lt_trans with y; [|assumption].
    now apply Qle_trans with x.
  - rewrite !py_int_floor by assumption. now apply Qfloor_resp_le.
Qed.

(** ** Facts about the random draws *)

Lemma random_sample_range (w : Z) :
  (0 <= random_sample w)%Q /\ (random_sample w < 1)%Q.
Proof.
  unfold random_sample.
  pose proof (Z.mod_pos_bound w (2 ^ 53) ltac:(reflexivity)) as [Hlo Hhi].
  split.
  - apply Qle_shift_div_l; [reflexivity|].
    rewrite Qmult_0_l. rewrite <- (Zle_Qle 0). exact Hlo.
  - apply Qlt_shift_div_r; [reflexivity|].
    rewrite Qmult_1_l. rewrite <- Zlt_Qlt. exact Hhi.
Qed.

Lemma uniform_range (low high : Q) (w : Z) :
  (low <= high)%Q ->
  (low <= uniform low high w)%Q /\ (uniform low high w <= high)%Q.
Proof.
  intros Hlh. unfold uniform.
  destruct (random_sample_range w) as [H0 H1].
  set (u := random_sample w) in *.
  assert (Hd : (0 <= high - low)%Q) by lra.
  pose proof (Qmult_le_0_compat _ _ Hd H0) as Hm.
  assert (Hm' : ((high - low) * u <= (high - low) * 1)%Q).
  { rewrite !(Qmult_comm (high - low)).
    apply Qmult_le_compat_r; [apply Qlt_le_weak; exact H1 | exact Hd]. }
  set (m := ((high - low) * u)%Q) in *.
  split; lra.
Qed.

Lemma randint_range (low high w v : Z) :
  randint low high w = Some v -> low <= v < high.
Proof.
  unfold randint. destruct (Z.ltb_spec low high) as [H|H]; [|discriminate].
  intros [= <-].
  pose proof (Z.mod_pos_bound w (high - low) ltac:(lia)). lia.
Qed.

Lemma randint_onto (low high v : Z) :
  low <= v < high -> randint low high (v - low) = Some v.
Proof.
  intros H. unfold randint.
  destruct (Z.ltb_spec low high) as [Hl|Hl]; [|lia].
  rewrite Z.mod_small by lia. f_equal. lia.
Qed.

(** ** Facts about the streaming loop *)

Module StreamerFacts.
Import Streamer.

Lemma chunk_size_quot (samples : Z) : chunk_size samples = Z.quot samples 100.
Proof.
  unfold chunk_size, py_int. simpl.
  now rewrite Z.mul_1_r.
Qed.

Lemma chunk_size_nonneg (samples : Z) : 0 <= samples -> 0 <= chunk_size samples.
Proof.
  intros H. rewrite chunk_size_quot. apply Z.quot_pos; lia.
Qed.

(** The loop only appends: its windows are the end-indices of the steps,
    in order. *)
Lemma fold_step_windows (samples : Z) (l : list Z) (d : display) :
  windows (fold_left (step samples) l d) =
  windows d ++ map (display_samples samples) l.
Proof.
  revert d. induction l as [|i l IH]; intros d; simpl.
  - now rewrite app_nil_r.
  - rewrite IH. simpl. now rewrite <- app_assoc.
Qed.

Lemma scan_windows (samples : Z) :
  windows (scan samples) = map (display_samples samples) (py_range 100).
Proof. unfold scan. now rewrite fold_step_windows. Qed.

Lemma scan_window_nth (samples : Z) (i : nat) :
  (i < 100)%nat ->
  nth i (windows (scan samples)) 0 = display_samples samples (Z.of_nat i).
Proof.
  intros Hi. rewrite scan_windows.
  rewrite nth_indep with (d' := display_samples samples 0)
    by (rewrite length_map, py_range_length; simpl; lia).
  rewrite map_nth, py_range_nth by (simpl; lia). reflexivity.
Qed.

Lemma display_samples_mono (samples i j : Z) :
  0 <= samples -> i <= j ->
  display_samples samples i <= display_samples samples j.
Proof.
  intros Hs Hij. unfold display_samples.
  pose proof (chunk_size_nonneg samples Hs) as Hc.
  apply Z.min_le_compat_r. nia.
Qed.

Lemma final_window_eq (samples : Z) :
  final_window samples = display_samples samples 99.
Proof.
  unfold final_window. rewrite scan_windows. reflexivity.
Qed.

Lemma final_window_value (samples : Z) :
  0 <= samples -> final_window samples = 100 * Z.quot samples 100.
Proof.
  intros Hs. rewrite final_window_eq. unfold display_samples.
  rewrite chunk_size_quot.
  pose proof (Z.quot_rem' samples 100) as E.
  pose proof (Z.rem_bound_pos samples 100 Hs ltac:(lia)) as B.
  lia.
Qed.

(** The script's own buffer (44100 Hz for 10 s) is covered in full, and
    every prefix it hands to [signal.welch] holds at least the 1024
    samples of one segment. *)
Lemma script_final_window : final_window 441000 = 441000.
Proof. reflexivity. Qed.

Lemma script_spectra_long_enough :
  Forall (fun n => 1024 <= n) (spectra (scan 441000)).
Proof.
  apply Forall_forall. intros n Hn.
  vm_compute in Hn.
  repeat (destruct Hn as [<- | Hn]; [discriminate|]).
  contradiction.
Qed.

End StreamerFacts.

(** ** Facts about the synthesized buffer *)

Section SynthesizerFacts.

Variable np_sin : Q -> Q.
Variable np_pi : Q.
Variable gaussian : Z -> Q.

Lemma vadd_length (a b : list Q) :
  length (vadd a b) = Nat.min (length a) (length b).
Proof. unfold vadd. now rewrite length_map, length_combine. Qed.

Lemma vmul_length (a b : list Q) :
  length (vmul a b) = Nat.min (length a) (length b).
Proof. unfold vmul. now rewrite length_map, length_combine. Qed.

Lemma vscale_length (c : Q) (a : list Q) : length (vscale c a) = length a.
Proof. apply length_map. Qed.

Lemma tone_length (f : Q) (a : list Q) :
  length (tone np_sin np_pi f a) = length a.
Proof. apply length_map. Qed.

Lemma after_length (c : Q) (a : list Q) : length (after c a) = length a.
Proof. apply length_map. Qed.

Lemma randn_length (tp : tape) (k : nat) (n : Z) :
  length (randn gaussian tp k n) = Z.to_nat n.
Proof. unfold randn. now rewrite length_map, length_seq. Qed.

Lemma zeros_length (n : Z) : length (zeros n) = Z.to_nat n.
Proof. apply repeat_length. Qed.

Lemma linspace_length (start stop : Q) (num : Z) (l : list Q) :
  linspace start stop num = Some l -> length l = Z.to_nat num.
Proof.
  unfold linspace. destruct (num <? 0); [discriminate|].
  intros [= <-]. now rewrite length_map, py_range_length.
Qed.

Lemma linspace_nth (start stop : Q) (num : Z) (l : list Q) (i : nat) :
  linspace start stop num = Some l -> (i < Z.to_nat num)%nat ->
  nth i l 0%Q =
  (inject_Z (Z.of_nat i) * ((stop - start) / inject_Z num) + start)%Q.
Proof.
  unfold linspace. destruct (num <? 0); [discriminate|].
  intros [= <-] Hi.
  set (f := fun i0 : Z =>
              (inject_Z i0 * ((stop - start) / inject_Z num) + start)%Q).
  rewrite nth_indep with (d' := f 0)
    by (rewrite length_map, py_range_length; exact Hi).
  rewrite map_nth, py_range_nth by exact Hi. reflexivity.
Qed.

(** Whatever the tape, a successful synthesis yields a time index and a
    signal of [samples] entries each. *)
Lemma synthesize_lengths (sample_rate : Z) (duration : Q) (tp : tape)
      (k k' : nat) (buf : signal_buffer) :
  synthesize np_sin np_pi gaussian sample_rate duration tp k = Some (buf, k') ->
  samples buf = sample_count sample_rate duration /\
  linspace 0 duration (samples buf) = Some (t buf) /\
  length (t buf) = Z.to_nat (samples buf) /\
  length (full_signal buf) = Z.to_nat (samples buf).
Proof.
  unfold synthesize.
  destruct (linspace 0 duration (sample_count sample_rate duration))
    as [ts|] eqn:El; [|discriminate].
  pose proof (linspace_length _ _ _ _ El) as Hl.
  destruct (Qlt_le_dec 0.6 _);
    intros [= <- <-]; simpl; repeat split; try assumption;
    rewrite ?vadd_length, ?vmul_length, ?vscale_length, ?tone_length,
      ?after_length, ?randn_length, ?zeros_length, ?Hl; lia.
Qed.

(** Synthesis only fails on a negative sample count. *)
Lemma synthesize_runs (sample_rate : Z) (duration : Q) (tp : tape) (k : nat) :
  0 <= sample_count sample_rate duration ->
  exists buf k',
    synthesize np_sin np_pi gaussian sample_rate duration tp k = Some (buf, k').
Proof.
  intros Hn. unfold synthesize, linspace.
  destruct (Z.ltb_spec (sample_count sample_rate duration) 0) as [Hlt|_]; [lia|].
  destruct (Qlt_le_dec 0.6 _); eexists; eexists; reflexivity.
Qed.

(** When [duration * sample_rate] is a whole number [n], synthesis
    succeeds with [n] samples and the [i]-th time stamp is
    [i / sample_rate]. *)
Lemma synthesize_whole_count (sample_rate : Z) (duration : Q) (n : Z)
      (tp : tape) (k : nat) :
  0 < sample_rate -> (0 < duration)%Q ->
  (duration * inject_Z sample_rate == inject_Z n)%Q ->
  exists buf k',
    synthesize np_sin np_pi gaussian sample_rate duration tp k = Some (buf, k') /\
    samples buf = n /\
    0 < n /\
    length (full_signal buf) = Z.to_nat n /\
    length (t buf) = Z.to_nat n /\
    forall i : nat, (i < Z.to_nat n)%nat ->
      (nth i (t buf) 0 == inject_Z (Z.of_nat i) / inject_Z sample_rate)%Q.
Proof.
  intros Hr Hd Hn.
  assert (Hrq : (0 < inject_Z sample_rate)%Q)
    by (rewrite (Zlt_Qlt 0 sample_rate) in Hr; exact Hr).
  assert (Hnq : (0 < inject_Z n)%Q).
  { rewrite <- Hn. apply Qmult_lt_0_compat; assumption. }
  assert (Hnpos : 0 < n) by (rewrite Zlt_Qlt; exact Hnq).
  assert (Hd0 : ~ (duration == 0)%Q)
    by (intros E; rewrite E in Hd; exact (Qlt_irrefl 0 Hd)).
  assert (Hr0 : ~ (inject_Z sample_rate == 0)%Q)
    by (intros E; rewrite E in Hrq; exact (Qlt_irrefl 0 Hrq)).
  pose proof (py_int_inject_Z _ _ Hn) as Hc.
  fold (sample_count sample_rate duration) in Hc.
  destruct (synthesize_runs sample_rate duration tp k) as (buf & k' & Hs); [lia|].
  exists buf, k'. split; [exact Hs|].
  destruct (synthesize_lengths _ _ _ _ _ _ Hs) as (Hsam & Hlin & Hlt & Hlf).
  rewrite Hc in Hsam. rewrite Hsam in Hlin, Hlt, Hlf.
  repeat split; try assumption.
  intros i Hi. rewrite (linspace_nth _ _ _ _ _ Hlin Hi).
  rewrite <- Hn. field. split; assumption.
Qed.

End SynthesizerFacts.

(** ** Facts about the risk score *)

Module RiskScorerFacts.
Import RiskScorer.

#[local] Open Scope Q_scope.

Lemma ef_ratio_le_1 (ef : Q) : ef <= 65 -> ef / 65 <= 1.
Proof.
  intros H. apply Qle_shift_div_r; [reflexivity|]. lra.
Qed.

Lemma raw_score_lower (nc ef ts : Q) (p : Z) :
  1.5 <= nc -> ef <= 65 -> 0.4 <= ts -> (0 <= p)%Z ->
  8 <= raw_score nc ef ts p.
Proof.
  intros Hnc Hef Hts Hp. unfold raw_score.
  pose proof (ef_ratio_le_1 ef Hef) as Hr.
  rewrite Zle_Qle in Hp. change (inject_Z 0) with 0 in Hp.
  set (r := ef / 65) in *. set (q := inject_Z p) in *. lra.
Qed.

Lemma raw_score_mono (nc nc' ef ef' ts ts' : Q) (p : Z) :
  nc <= nc' -> 1 - ef / 65 <= 1 - ef' / 65 -> ts <= ts' ->
  raw_score nc ef ts p <= raw_score nc' ef' ts' p.
Proof.
  intros Hnc Hef Hts. unfold raw_score.
  set (r := ef / 65) in *. set (r' := ef' / 65) in *. lra.
Qed.

(** The clamp [min(100, int(x))] keeps every integer lower bound of [x]
    that is at most 100. *)
Lemma clamp_lower (x : Q) (b : Z) :
  (b <= 100)%Z -> inject_Z b <= x -> (b <= Z.min 100 (py_int x))%Z.
Proof.
  intros Hb Hx. apply Z.min_glb; [exact Hb|].
  rewrite <- (py_int_inject_Z (inject_Z b) b) by reflexivity.
  now apply py_int_mono.
Qed.

(** At the script's own interface: whatever the tape holds, the analysis
    succeeds, the drawn markers lie in their ranges, the random term lies
    in [0,14] and the score in [8,100]. *)
Lemma analyse_in_range (tp : tape) (k : nat) :
  exists d : diagnosis,
    analyse tp k = Some (d, (4 + k)%nat) /\
    1.5 <= nc_ratio d <= 2.8 /\
    35 <= ejection_fraction d <= 65 /\
    0.4 <= trabeculation_score d <= 0.9 /\
    (0 <= perturbation d <= 14)%Z /\
    score d = risk_score (nc_ratio d) (ejection_fraction d)
                         (trabeculation_score d) (perturbation d) /\
    (8 <= score d <= 100)%Z.
Proof.
  unfold analyse.
  destruct (randint 0 15 (tp (3 + k)%nat)) as [p|] eqn:Ep.
  - apply randint_range in Ep.
    eexists. split; [reflexivity|]. simpl.
    pose proof (uniform_range 1.5 2.8 (tp k) ltac:(discriminate)) as Hnc.
    pose proof (uniform_range 35 65 (tp (S k)) ltac:(discriminate)) as Hef.
    pose proof (uniform_range 0.4 0.9 (tp (S (S k))) ltac:(discriminate)) as Hts.
    repeat split; try tauto; try lia.
    + apply clamp_lower; [lia|].
      apply raw_score_lower; try tauto; lia.
    + unfold risk_score. apply Z.le_min_l.
  - unfold randint in Ep. simpl in Ep. discriminate.
Qed.

End RiskScorerFacts.

(** ** The script as a whole *)

Module ScriptFacts.
Import Streamer RiskScorer.

(** Whatever the tape and the numeric primitives, a scan runs to the end:
    441000 samples, one hundred windows the last of which shows the whole
    buffer, and a score between 8 and 100. *)
Lemma start_scan_runs (np_sin : Q -> Q) (np_pi : Q) (gaussian : Z -> Q)
      (tp : tape) :
  exists s : session,
    start_scan np_sin np_pi gaussian tp = Some s /\
    samples (buffer s) = 441000 /\
    length (full_signal (buffer s)) = Z.to_nat 441000 /\
    length (windows (shown s)) = 100%nat /\
    last (windows (shown s)) 0 = 441000 /\
    8 <= score (result s) <= 100.
Proof.
  destruct (synthesize_whole_count np_sin np_pi gaussian sample_rate duration
                                   441000 tp 0)
    as (buf & k & Hs & Hsam & _ & Hlf & _); try reflexivity.
  destruct (RiskScorerFacts.analyse_in_range tp k)
    as (d & Hd & _ & _ & _ & _ & _ & Hsc).
  unfold start_scan. rewrite Hs, Hd.
  eexists. split; [reflexivity|]. cbn [buffer shown result].
  rewrite Hsam.
  split; [reflexivity|]. split; [exact Hlf|].
  split; [now rewrite StreamerFacts.scan_windows, length_map, py_range_length|].
  split; [apply StreamerFacts.script_final_window | exact Hsc].
Qed.

End ScriptFacts.

(** ** Facts about binary64 rounding *)

Module Rounding.

#[local] Open Scope Q_scope.

Lemma pow2_pos (k : Z) : 0 < pow2 k.
Proof. apply Qpower_0_lt. reflexivity. Qed.

Lemma pow2_neq0 (k : Z) : ~ pow2 k == 0.
Proof. intros E. pose proof (pow2_pos k) as H. rewrite E in H. exact (Qlt_irrefl 0 H). Qed.

Lemma pow2_add (a b : Z) : pow2 (a + b) == pow2 a * pow2 b.
Proof. apply Qpower_plus. discriminate. Qed.

Lemma pow2_sub (a b : Z) : pow2 (a - b) == pow2 a / pow2 b.
Proof. apply Qpower_minus. discriminate. Qed.

Lemma pow2_le (a b : Z) : (a <= b)%Z -> pow2 a <= pow2 b.
Proof. intros H. apply Qpower_le_compat_l; [exact H | discriminate]. Qed.

Lemma pow2_lt (a b : Z) : (a < b)%Z -> pow2 a < pow2 b.
Proof. intros H. apply Qpower_lt_compat_l; [exact H | reflexivity]. Qed.

Lemma pow2_lt_inv (a b : Z) : pow2 a < pow2 b -> (a < b)%Z.
Proof. intros H. apply (Qpower_lt_compat_l_inv 2); [exact H | reflexivity]. Qed.

Lemma pow2_Z (n : Z) : (0 <= n)%Z -> pow2 n == inject_Z (2 ^ n).
Proof. intros H. unfold pow2. now rewrite Zpower_Qpower. Qed.

Lemma Q_as_div (x : Q) : x == inject_Z (Qnum x) / inject_Z (Zpos (Qden x)).
Proof. destruct x as [a d]. simpl. apply Qmake_Qdiv. Qed.

Lemma Qnum_pos (x : Q) : 0 < x -> (0 < Qnum x)%Z.
Proof. destruct x as [a d]. unfold Qlt. simpl. lia. Qed.

Lemma Q_mul_den (x : Q) : x * inject_Z (Zpos (Qden x)) == inject_Z (Qnum x).
Proof. destruct x as [a d]. unfold Qeq, Qmult, inject_Z. simpl. lia. Qed.

(** [ilog2 x] is the exponent of the binade of [x]. *)
Lemma ilog2_rough (x : Q) :
  0 < x ->
  let k := (Z.log2 (Qnum x) - Z.log2 (Zpos (Qden x)))%Z in
  pow2 (k - 1) <= x /\ x < pow2 (k + 1).
Proof.
  intros Hx k.
  pose proof (Qnum_pos x Hx) as Ha.
  pose proof (Z.log2_spec (Qnum x) Ha) as [La Ua].
  pose proof (Z.log2_spec (Zpos (Qden x)) ltac:(reflexivity)) as [Lb Ub].
  pose proof (Z.log2_nonneg (Qnum x)) as Na.
  pose proof (Z.log2_nonneg (Zpos (Qden x))) as Nb.
  set (la := Z.log2 (Qnum x)) in *. set (lb := Z.log2 (Zpos (Qden x))) in *.
  pose proof (Q_mul_den x) as E.
  assert (Hd : pow2 lb <= inject_Z (Zpos (Qden x)))
    by (rewrite pow2_Z by lia; rewrite <- Zle_Qle; exact Lb).
  assert (Hd' : inject_Z (Zpos (Qden x)) < pow2 (lb + 1))
    by (rewrite pow2_Z by lia; rewrite <- Zlt_Qlt; rewrite <- Z.add_1_r in Ub; exact Ub).
  assert (Hn : pow2 la <= inject_Z (Qnum x))
    by (rewrite pow2_Z by lia; rewrite <- Zle_Qle; exact La).
  assert (Hn' : inject_Z (Qnum x) < pow2 (la + 1))
    by (rewrite pow2_Z by lia; rewrite <- Zlt_Qlt; rewrite <- Z.add_1_r in Ua; exact Ua).
  split.
  - replace (k - 1)%Z with (la - (lb + 1))%Z by (unfold k; lia).
    rewrite pow2_sub. apply Qle_shift_div_r; [apply pow2_pos|].
    apply Qle_trans with (inject_Z (Qnum x)); [exact Hn|].
    rewrite <- E. rewrite !(Qmult_comm x).
    apply Qmult_le_compat_r; [apply Qlt_le_weak; exact Hd' | apply Qlt_le_weak; exact Hx].
  - replace (k + 1)%Z with (la + 1 - lb)%Z by (unfold k; lia).
    rewrite pow2_sub. apply Qlt_shift_div_l; [apply pow2_pos|].
    apply Qle_lt_trans with (inject_Z (Qnum x)); [|exact Hn'].
    rewrite <- E. rewrite !(Qmult_comm x).
    apply Qmult_le_compat_r; [exact Hd | apply Qlt_le_weak; exact Hx].
Qed.

Lemma ilog2_spec (x : Q) :
  0 < x -> pow2 (ilog2 x) <= x /\ x < pow2 (ilog2 x + 1).
Proof.
  intros Hx. destruct (ilog2_rough x Hx) as [L U]. unfold ilog2.
  set (k := (Z.log2 (Qnum x) - Z.log2 (Zpos (Qden x)))%Z) in *.
  destruct (Qle_bool (pow2 k) x) eqn:T.
  - split; [now apply Qle_bool_iff | exact U].
  - split; [exact L|].
    replace (k - 1 + 1)%Z with k by lia.
    apply Qnot_le_lt. intros H. apply Qle_bool_iff in H. congruence.
Qed.

Lemma ilog2_unique (x : Q) (k : Z) :
  0 < x -> pow2 k <= x -> x < pow2 (k + 1) -> ilog2 x = k.
Proof.
  intros Hx L U. destruct (ilog2_spec x Hx) as [L' U'].
  pose proof (pow2_lt_inv _ _ (Qle_lt_trans _ _ _ L U')).
  pose proof (pow2_lt_inv _ _ (Qle_lt_trans _ _ _ L' U)).
  lia.
Qed.

Lemma ilog2_mono (x y : Q) : 0 < x -> x <= y -> (ilog2 x <= ilog2 y)%Z.
Proof.
  intros Hx Hxy.
  assert (Hy : 0 < y) by (apply Qlt_le_trans with x; assumption).
  destruct (ilog2_spec x Hx) as [L _]. destruct (ilog2_spec y Hy) as [_ U].
  pose proof (pow2_lt_inv _ _ (Qle_lt_trans _ _ _ (Qle_trans _ _ _ L Hxy) U)).
  lia.
Qed.

(** Rounding to the nearest integer. *)

Lemma rne_cases (s : Q) :
  let f := Qfloor s in
  (rne s = f /\ s - inject_Z f <= 1 # 2) \/
  (rne s = (f + 1)%Z /\ 1 # 2 <= s - inject_Z f).
Proof.
  intros f. unfold rne. fold f.
  destruct (Qcompare_spec (s - inject_Z f) (1 # 2)) as [E|L|G].
  - destruct (Z.even f); [left | right]; split; try reflexivity;
      rewrite E; apply Qle_refl.
  - left. split; [reflexivity | apply Qlt_le_weak; exact L].
  - right. split; [reflexivity | apply Qlt_le_weak; exact G].
Qed.

Lemma rne_err (s : Q) :
  s - (1 # 2) <= inject_Z (rne s) /\ inject_Z (rne s) <= s + (1 # 2).
Proof.
  pose proof (Qfloor_le s) as L. pose proof (Qlt_floor s) as U.
  rewrite inject_Z_plus in U. change (inject_Z 1) with 1 in U.
  destruct (rne_cases s) as [[E H]|[E H]]; rewrite E;
    rewrite ?inject_Z_plus; change (inject_Z 1) with 1;
    set (q := inject_Z (Qfloor s)) in *; clearbody q; split; lra.
Qed.

Lemma rne_Z (s : Q) (z : Z) : s == inject_Z z -> rne s = z.
Proof.
  intros E. unfold rne.
  assert (F : Qfloor s = z) by (rewrite E; apply Qfloor_Z).
  rewrite F.
  assert (C : Qcompare (s - inject_Z z) (1 # 2) = Lt).
  { apply Qlt_alt. rewrite E.
    setoid_replace (inject_Z z - inject_Z z) with 0 by ring. reflexivity. }
  now rewrite C.
Qed.

Lemma rne_mono (s s' : Q) : s <= s' -> (rne s <= rne s')%Z.
Proof.
  intros H.
  pose proof (Qfloor_resp_le _ _ H) as Hf.
  pose proof (Qfloor_le s') as L'. pose proof (Qlt_floor s) as U.
  unfold rne.
  set (f := Qfloor s) in *. set (f' := Qfloor s') in *.
  destruct (Z.eq_dec f f') as [E|N].
  - rewrite <- E in *.
    destruct (Qcompare_spec (s - inject_Z f) (1 # 2)) as [A|A|A];
    destruct (Qcompare_spec (s' - inject_Z f) (1 # 2)) as [B|B|B];
      try lia; try (destruct (Z.even f); lia); exfalso;
      set (q := inject_Z f) in *; clearbody q; lra.
  - assert (Hlt : (f + 1 <= f')%Z) by lia.
    destruct (Qcompare (s - inject_Z f) (1 # 2));
    destruct (Qcompare (s' - inject_Z f') (1 # 2));
      try (destruct (Z.even f)); try (destruct (Z.even f')); lia.
Qed.

Lemma rne_comp (s s' : Q) : s == s' -> rne s = rne s'.
Proof.
  intros E. apply Z.le_antisymm; apply rne_mono; rewrite E; apply Qle_refl.
Qed.

(** Rounding of a positive number. *)

(** The scaled value lies in [2^52, 2^53), and so does its rounding, up
    to the end point. *)
Lemma scaled_range (x : Q) :
  0 < x ->
  pow2 52 <= x / pow2 (ilog2 x - 52) /\ x / pow2 (ilog2 x - 52) < pow2 53.
Proof.
  intros Hx. destruct (ilog2_spec x Hx) as [L U].
  set (k := ilog2 x) in *.
  assert (E1 : pow2 k == pow2 52 * pow2 (k - 52))
    by (rewrite <- pow2_add; apply Qpower_comp; [reflexivity | lia]).
  assert (E2 : pow2 (k + 1) == pow2 53 * pow2 (k - 52))
    by (rewrite <- pow2_add; apply Qpower_comp; [reflexivity | lia]).
  split.
  - apply Qle_shift_div_l; [apply pow2_pos|]. rewrite <- E1. exact L.
  - apply Qlt_shift_div_r; [apply pow2_pos|]. rewrite <- E2. exact U.
Qed.

Lemma mant_range (x : Q) :
  0 < x ->
  (2 ^ 52 <= rne (x / pow2 (ilog2 x - 52)) <= 2 ^ 53)%Z.
Proof.
  intros Hx. destruct (scaled_range x Hx) as [L U].
  split.
  - apply Z.le_trans with (rne (pow2 52)).
    + rewrite (rne_Z (pow2 52) (2 ^ 52)) by reflexivity. lia.
    + apply rne_mono. exact L.
  - apply Z.le_trans with (rne (pow2 53)).
    + apply rne_mono. apply Qlt_le_weak. exact U.
    + rewrite (rne_Z (pow2 53) (2 ^ 53)) by reflexivity. lia.
Qed.

Lemma unscale (x : Q) (e : Z) : x == x / pow2 e * pow2 e.
Proof. field. apply pow2_neq0. Qed.

Lemma round_pos_range (x : Q) :
  0 < x ->
  pow2 (ilog2 x) <= round_pos x /\ round_pos x <= pow2 (ilog2 x + 1).
Proof.
  intros Hx. destruct (mant_range x Hx) as [L U]. unfold round_pos.
  set (k := ilog2 x) in *. set (m := rne (x / pow2 (k - 52))) in *.
  assert (E1 : pow2 k == pow2 52 * pow2 (k - 52))
    by (rewrite <- pow2_add; apply Qpower_comp; [reflexivity | lia]).
  assert (E2 : pow2 (k + 1) == pow2 53 * pow2 (k - 52))
    by (rewrite <- pow2_add; apply Qpower_comp; [reflexivity | lia]).
  rewrite E1, E2.
  split; apply Qmult_le_compat_r; try (apply Qlt_le_weak, pow2_pos).
  - rewrite pow2_Z by lia. rewrite <- Zle_Qle. exact L.
  - rewrite pow2_Z by lia. rewrite <- Zle_Qle. exact U.
Qed.

(** One rounding moves a positive number by at most the fraction 2^-53
    of itself. *)
Lemma round_pos_err (x : Q) :
  0 < x ->
  x * (1 - u53) <= round_pos x /\ round_pos x <= x * (1 + u53).
Proof.
  intros Hx. destruct (ilog2_spec x Hx) as [L _]. unfold round_pos.
  set (k := ilog2 x) in *. set (e := (k - 52)%Z).
  destruct (rne_err (x / pow2 e)) as [A B].
  set (m := inject_Z (rne (x / pow2 e))) in *.
  pose proof (pow2_pos e) as Pe.
  assert (Hh : (1 # 2) * pow2 e <= x * u53).
  { apply Qle_trans with (pow2 k * u53).
    - unfold u53. rewrite <- pow2_add.
      assert (E : pow2 e == 2 * pow2 (k + -53)).
      { change 2 with (pow2 1). rewrite <- pow2_add.
        apply Qpower_comp; [reflexivity | unfold e; lia]. }
      rewrite E. lra.
    - apply Qmult_le_compat_r; [exact L|].
      apply Qlt_le_weak. apply pow2_pos. }
  assert (Ex : x == x / pow2 e * pow2 e) by apply unscale.
  set (s := x / pow2 e) in *.
  assert (A' : (s - (1 # 2)) * pow2 e <= m * pow2 e)
    by (apply Qmult_le_compat_r; [exact A | apply Qlt_le_weak; exact Pe]).
  assert (B' : m * pow2 e <= (s + (1 # 2)) * pow2 e)
    by (apply Qmult_le_compat_r; [exact B | apply Qlt_le_weak; exact Pe]).
  set (p := pow2 e) in *. set (sp := s * p) in *. set (mp := m * p) in *.
  assert (A'' : sp - (1 # 2) * p <= mp)
    by (apply Qle_trans with ((s - (1 # 2)) * p); [unfold sp; ring_simplify; apply Qle_refl | exact A']).
  assert (B'' : mp <= sp + (1 # 2) * p)
    by (apply Qle_trans with ((s + (1 # 2)) * p); [exact B' | unfold sp; ring_simplify; apply Qle_refl]).
  set (xu := x * u53) in *.
  assert (X1 : x * (1 - u53) == x - xu) by (unfold xu; ring).
  assert (X2 : x * (1 + u53) == x + xu) by (unfold xu; ring).
  rewrite X1, X2. split; lra.
Qed.

(** Rounding is monotone: within a binade by [rne_mono], across binades
    because a rounded number stays inside the closure of its binade. *)
Lemma round_pos_mono (x y : Q) :
  0 < x -> x <= y -> round_pos x <= round_pos y.
Proof.
  intros Hx Hxy.
  assert (Hy : 0 < y) by (apply Qlt_le_trans with x; assumption).
  pose proof (ilog2_mono x y Hx Hxy) as Hk.
  destruct (Z.eq_dec (ilog2 x) (ilog2 y)) as [E|N].
  - unfold round_pos. rewrite E.
    apply Qmult_le_compat_r; [|apply Qlt_le_weak, pow2_pos].
    rewrite <- Zle_Qle. apply rne_mono.
    apply Qmult_le_compat_r; [exact Hxy|].
    apply Qlt_le_weak, Qinv_lt_0_compat, pow2_pos.
  - destruct (round_pos_range x Hx) as [_ U].
    destruct (round_pos_range y Hy) as [L _].
    apply Qle_trans with (pow2 (ilog2 x + 1)); [exact U|].
    apply Qle_trans with (pow2 (ilog2 y)); [|exact L].
    apply pow2_le. lia.
Qed.

Lemma round_pos_pos (x : Q) : 0 < x -> 0 < round_pos x.
Proof.
  intros Hx. destruct (round_pos_range x Hx) as [L _].
  apply Qlt_le_trans with (pow2 (ilog2 x)); [apply pow2_pos | exact L].
Qed.

(** A number with a significand of at most 53 bits is its own rounding. *)
Lemma round_pos_repr_lt (x : Q) (m0 e0 : Z) :
  (0 < m0 < 2 ^ 53)%Z -> x == inject_Z m0 * pow2 e0 -> round_pos x == x.
Proof.
  intros [Hm0 Hm1] Ex.
  assert (Hm0q : 0 < inject_Z m0) by (change 0 with (inject_Z 0); rewrite <- Zlt_Qlt; exact Hm0).
  assert (Hx : 0 < x).
  { rewrite Ex. apply Qmult_lt_0_compat; [exact Hm0q | apply pow2_pos]. }
  destruct (ilog2_spec x Hx) as [L _].
  assert (U : x < pow2 (53 + e0)).
  { rewrite Ex, pow2_add. apply Qmult_lt_compat_r; [apply pow2_pos|].
    rewrite pow2_Z by lia. rewrite <- Zlt_Qlt. exact Hm1. }
  pose proof (pow2_lt_inv _ _ (Qle_lt_trans _ _ _ L U)) as Hk.
  unfold round_pos. set (e := (ilog2 x - 52)%Z) in *.
  assert (Hd : (0 <= e0 - e)%Z) by (unfold e; lia).
  assert (Es : x / pow2 e == inject_Z (m0 * 2 ^ (e0 - e))).
  { rewrite inject_Z_mult, <- pow2_Z by exact Hd.
    rewrite pow2_sub, Ex. field. apply pow2_neq0. }
  rewrite (rne_Z _ _ Es). rewrite <- Es. symmetry. apply unscale.
Qed.

Lemma round_pos_repr (x : Q) (m0 e0 : Z) :
  (0 < m0 <= 2 ^ 53)%Z -> x == inject_Z m0 * pow2 e0 -> round_pos x == x.
Proof.
  intros [Hm0 Hm1] Ex.
  destruct (Z.eq_dec m0 (2 ^ 53)) as [E|N].
  - apply (round_pos_repr_lt x (2 ^ 52) (e0 + 1)); [split; reflexivity|].
    rewrite Ex, E, pow2_add. change (pow2 1) with 2.
    change (inject_Z (2 ^ 53)) with (inject_Z (2 ^ 52) * 2). ring.
  - apply (round_pos_repr_lt x m0 e0); [lia | exact Ex].
Qed.

Lemma round_pos_idem (x : Q) : 0 < x -> round_pos (round_pos x) == round_pos x.
Proof.
  intros Hx. destruct (mant_range x Hx) as [L U].
  apply (round_pos_repr _ (rne (x / pow2 (ilog2 x - 52))) (ilog2 x - 52)).
  - lia.
  - reflexivity.
Qed.

(** Rounding of any number. *)

Lemma fl_pos (x : Q) : 0 < x -> fl x = round_pos x.
Proof.
  intros H. unfold fl. destruct (Qcompare_spec x 0) as [E|L|G].
  - rewrite E in H. exfalso. exact (Qlt_irrefl 0 H).
  - exfalso. exact (Qlt_irrefl 0 (Qlt_trans _ _ _ H L)).
  - reflexivity.
Qed.

Lemma fl_neg (x : Q) : x < 0 -> fl x = - round_pos (- x).
Proof.
  intros H. unfold fl. destruct (Qcompare_spec x 0) as [E|L|G].
  - rewrite E in H. exfalso. exact (Qlt_irrefl 0 H).
  - reflexivity.
  - exfalso. exact (Qlt_irrefl 0 (Qlt_trans _ _ _ G H)).
Qed.

Lemma fl_zero (x : Q) : x == 0 -> fl x = 0.
Proof.
  intros H. unfold fl. destruct (Qcompare_spec x 0) as [E|L|G].
  - reflexivity.
  - rewrite H in L. exfalso. exact (Qlt_irrefl 0 L).
  - rewrite H in G. exfalso. exact (Qlt_irrefl 0 G).
Qed.

Lemma round_pos_comp (x y : Q) : 0 < x -> x == y -> round_pos x == round_pos y.
Proof.
  intros Hx E.
  assert (Hy : 0 < y) by (rewrite <- E; exact Hx).
  apply Qle_antisym; apply round_pos_mono; try assumption; rewrite E; apply Qle_refl.
Qed.

Lemma fl_nonneg (x : Q) : 0 <= x -> 0 <= fl x.
Proof.
  intros H. destruct (Qlt_le_dec 0 x) as [P|N].
  - rewrite (fl_pos x P). apply Qlt_le_weak, round_pos_pos, P.
  - rewrite (fl_zero x); [apply Qle_refl | apply Qle_antisym; assumption].
Qed.

Lemma fl_nonpos (x : Q) : x <= 0 -> fl x <= 0.
Proof.
  intros H. destruct (Qlt_le_dec x 0) as [P|N].
  - rewrite (fl_neg x P).
    assert (Q0 : 0 < - x) by lra.
    pose proof (round_pos_pos (- x) Q0). lra.
  - rewrite (fl_zero x); [apply Qle_refl | apply Qle_antisym; assumption].
Qed.

Lemma fl_mono (x y : Q) : x <= y -> fl x <= fl y.
Proof.
  intros H.
  destruct (Qlt_le_dec 0 x) as [Px|Nx].
  - assert (Py : 0 < y) by (apply Qlt_le_trans with x; assumption).
    rewrite (fl_pos x Px), (fl_pos y Py). now apply round_pos_mono.
  - destruct (Qlt_le_dec y 0) as [Ny|Py].
    + assert (Nx' : x < 0) by (apply Qle_lt_trans with y; assumption).
      rewrite (fl_neg x Nx'), (fl_neg y Ny).
      assert (M : round_pos (- y) <= round_pos (- x))
        by (apply round_pos_mono; lra).
      lra.
    + apply Qle_trans with 0; [now apply fl_nonpos | now apply fl_nonneg].
Qed.

Lemma fl_comp (x y : Q) : x == y -> fl x == fl y.
Proof.
  intros E. apply Qle_antisym; apply fl_mono; rewrite E; apply Qle_refl.
Qed.

Lemma fl_idem (x : Q) : fl (fl x) == fl x.
Proof.
  destruct (Qcompare_spec x 0) as [E|L|G].
  - rewrite (fl_zero x E). reflexivity.
  - rewrite (fl_neg x L).
    assert (P : 0 < - x) by lra.
    pose proof (round_pos_pos _ P) as R.
    assert (N : - round_pos (- x) < 0) by lra.
    rewrite (fl_neg _ N).
    assert (E : - - round_pos (- x) == round_pos (- x)) by ring.
    assert (P2 : 0 < - - round_pos (- x)) by lra.
    rewrite (round_pos_comp _ _ P2 E).
    rewrite (round_pos_idem _ P). reflexivity.
  - rewrite (fl_pos x G). rewrite (fl_pos _ (round_pos_pos _ G)).
    apply round_pos_idem, G.
Qed.

(** Integers up to 2^53 in magnitude are representable. *)
Lemma fl_Z (z : Z) : (Z.abs z <= 2 ^ 53)%Z -> fl (inject_Z z) == inject_Z z.
Proof.
  intros H. destruct (Z.lt_trichotomy z 0) as [N|[E|P]].
  - assert (Nq : inject_Z z < 0) by (change 0 with (inject_Z 0); rewrite <- Zlt_Qlt; exact N).
    rewrite (fl_neg _ Nq).
    rewrite (round_pos_repr (- inject_Z z) (- z) 0); [ring | lia |].
    rewrite inject_Z_opp. change (pow2 0) with 1. ring.
  - subst z. reflexivity.
  - assert (Pq : 0 < inject_Z z) by (change 0 with (inject_Z 0); rewrite <- Zlt_Qlt; exact P).
    rewrite (fl_pos _ Pq).
    apply (round_pos_repr _ z 0); [lia|].
    change (pow2 0) with 1. ring.
Qed.

Lemma fl_err (x : Q) :
  0 <= x -> x * (1 - u53) <= fl x /\ fl x <= x * (1 + u53).
Proof.
  intros H. destruct (Qlt_le_dec 0 x) as [P|N].
  - rewrite (fl_pos x P). now apply round_pos_err.
  - assert (E : x == 0) by (apply Qle_antisym; assumption).
    rewrite (fl_zero x E), E. split; discriminate.
Qed.

#[export] Instance fl_proper : Proper (Qeq ==> Qeq) fl.
Proof. intros x y E. now apply fl_comp. Qed.

Lemma u53_val : u53 == 1 # 9007199254740992.
Proof. reflexivity. Qed.

(** One rounding of a non-negative value, as two linear bounds. *)
Lemma fl_bounds (x : Q) :
  0 <= x ->
  x - x * (1 # 9007199254740992) <= fl x /\
  fl x <= x + x * (1 # 9007199254740992).
Proof.
  intros H. destruct (fl_err x H) as [A B]. rewrite u53_val in A, B. split; lra.
Qed.

Lemma fl_gt0 (x : Q) : 0 < x -> 0 < fl x.
Proof. intros H. rewrite (fl_pos x H). now apply round_pos_pos. Qed.

(** Two numbers less than 1 apart have floors at most 1 apart. *)
Lemma Qfloor_near (x y : Q) :
  x - 1 < y -> y < x + 1 -> (Qfloor x - 1 <= Qfloor y <= Qfloor x + 1)%Z.
Proof.
  intros L U.
  pose proof (Qfloor_le x) as Lx. pose proof (Qlt_floor x) as Ux.
  pose proof (Qfloor_le y) as Ly. pose proof (Qlt_floor y) as Uy.
  rewrite inject_Z_plus in Ux, Uy. change (inject_Z 1) with 1 in Ux, Uy.
  assert (A : inject_Z (Qfloor x + -1) < inject_Z (Qfloor y + 1)).
  { rewrite !inject_Z_plus. change (inject_Z (-1)) with (-1). change (inject_Z 1) with 1.
    set (a := inject_Z (Qfloor x)) in *. set (b := inject_Z (Qfloor y)) in *. lra. }
  assert (B : inject_Z (Qfloor y) < inject_Z (Qfloor x + 2)).
  { rewrite !inject_Z_plus. change (inject_Z 2) with 2.
    set (a := inject_Z (Qfloor x)) in *. set (b := inject_Z (Qfloor y)) in *. lra. }
  rewrite <- Zlt_Qlt in A, B. lia.
Qed.

(** [fl] against the kernel's binary64 numbers: the literals 0.1, 0.2,
    0.3 and 0.4, one instance of each operation, and the two ways a tie
    is broken. *)
Lemma fl_matches_kernel_floats :
  float_to_Q 0x1.999999999999ap-4%float == fl 0.1 /\
  float_to_Q 0x1.999999999999ap-3%float == fl 0.2 /\
  float_to_Q 0x1.3333333333333p-2%float == fl 0.3 /\
  float_to_Q 0x1.999999999999ap-2%float == fl 0.4 /\
  float_to_Q (0x1.999999999999ap-4 + 0x1.999999999999ap-3)%float
    == B64.add (fl 0.1) (fl 0.2) /\
  float_to_Q (0x1.3333333333333p-2 - 0x1.999999999999ap-4)%float
    == B64.sub (fl 0.3) (fl 0.1) /\
  float_to_Q (0x1.999999999999ap-4 * 3)%float == B64.mul (fl 0.1) 3 /\
  float_to_Q (1 / 3)%float == B64.div 1 3 /\
  float_to_Q (9007199254740992 + 1)%float == B64.add 9007199254740992 1 /\
  B64.add 9007199254740992 1 == 9007199254740992 /\
  float_to_Q (9007199254740992 + 3)%float == B64.add 9007199254740992 3 /\
  B64.add 9007199254740992 3 == 9007199254740996.
Proof. vm_compute. repeat split. Qed.

End Rounding.

(** ** Facts about the risk score in binary64 *)

Module RiskScorer64Facts.
Import Rounding.

#[local] Open Scope Q_scope.

Ltac round_step x H B N :=
  pose proof (fl_bounds x H) as B; pose proof (fl_nonneg x H) as N.

Lemma raw_score64_bounds (nc ef ts : Q) (p : Z) :
  fl ts == ts ->
  1.5 <= nc <= 2.8 -> 35 <= ef <= 65 -> 0.4 <= ts <= 0.9 -> (0 <= p <= 15)%Z ->
  8 <= RiskScorer64.raw_score nc ef ts p /\
  RiskScorer64.raw_score nc ef ts p
    - (30 * (nc - 1.5) + 25 * (1 - ef / 65) + 20 * ts + inject_Z p) < 1 # 10000000000000 /\
  (30 * (nc - 1.5) + 25 * (1 - ef / 65) + 20 * ts + inject_Z p)
    - RiskScorer64.raw_score nc ef ts p < 1 # 10000000000000.
Proof.
  intros ts_double [Hn1 Hn2] [He1 He2] [Ht1 Ht2] p_range.
  assert (Hp : 0 <= inject_Z p <= 15).
  { split; [change 0 with (inject_Z 0) | change 15 with (inject_Z 15)];
      rewrite <- Zle_Qle; lia. }
  assert (E15 : fl 1.5 == 1.5) by reflexivity.
  assert (E30 : fl (inject_Z 30) == 30) by reflexivity.
  assert (E65 : fl (inject_Z 65) == 65) by reflexivity.
  assert (E1 : fl (inject_Z 1) == 1) by reflexivity.
  assert (E25 : fl (inject_Z 25) == 25) by reflexivity.
  assert (E20 : fl (inject_Z 20) == 20) by reflexivity.
  assert (Ep : fl (inject_Z p) == inject_Z p) by (apply fl_Z; lia).
  assert (F1 : fl 1 == 1) by reflexivity.
  assert (F8 : fl 8 == 8) by reflexivity.
  unfold RiskScorer64.raw_score, B64.add, B64.sub, B64.mul, B64.div, B64.of_int, B64.lit.
  set (c15 := fl 1.5) in *. set (c30 := fl (inject_Z 30)) in *.
  set (c65 := fl (inject_Z 65)) in *. set (c1 := fl (inject_Z 1)) in *.
  set (c25 := fl (inject_Z 25)) in *. set (c20 := fl (inject_Z 20)) in *.
  set (cp := fl (inject_Z p)) in *.
  (* a1 = nc - 1.5 *)
  assert (Xa1 : 0 <= nc - c15) by (rewrite E15; lra).
  round_step (nc - c15) Xa1 Ba1 Na1. set (a1 := fl (nc - c15)) in *.
  (* A = 30 * a1 *)
  assert (XA : 0 <= c30 * a1) by (rewrite E30; lra).
  round_step (c30 * a1) XA BA NA. set (A := fl (c30 * a1)) in *.
  (* r = ef / 65 *)
  assert (Hq : 35 / 65 <= ef / 65 /\ ef / 65 <= 1).
  { split.
    - apply Qmult_le_compat_r; [exact He1 | discriminate].
    - apply Qle_shift_div_r; [reflexivity | lra]. }
  assert (Eq65 : ef / c65 == ef / 65)
    by (apply Qdiv_comp; [reflexivity | exact E65]).
  assert (Xr : 0 <= ef / c65).
  { rewrite Eq65. apply Qle_trans with (35 / 65); [discriminate | tauto]. }
  round_step (ef / c65) Xr Br Nr.
  assert (Ur : fl (ef / c65) <= 1).
  { rewrite <- F1. apply fl_mono. rewrite Eq65. tauto. }
  set (r := fl (ef / c65)) in *.
  (* b1 = 1 - r *)
  assert (Xb1 : 0 <= c1 - r) by (rewrite E1; lra).
  round_step (c1 - r) Xb1 Bb1 Nb1. set (b1 := fl (c1 - r)) in *.
  (* B = 25 * b1 *)
  assert (XB : 0 <= c25 * b1) by (rewrite E25; lra).
  round_step (c25 * b1) XB BB NB. set (B := fl (c25 * b1)) in *.
  (* C = 20 * ts *)
  assert (XC : 0 <= c20 * ts) by (rewrite E20; lra).
  round_step (c20 * ts) XC BC NC.
  assert (LC : 8 <= fl (c20 * ts)).
  { rewrite <- F8. apply fl_mono. rewrite E20.
    assert (T : fl 0.4 <= ts) by (rewrite <- ts_double; apply fl_mono; exact Ht1).
    assert (V : 8 <= 20 * fl 0.4) by (vm_compute; discriminate).
    lra. }
  set (C := fl (c20 * ts)) in *.
  (* the three sums *)
  assert (XS1 : 0 <= A + B) by lra.
  round_step (A + B) XS1 BS1 NS1. set (S1 := fl (A + B)) in *.
  assert (XS2 : 0 <= S1 + C) by lra.
  round_step (S1 + C) XS2 BS2 NS2.
  assert (LS2 : 8 <= fl (S1 + C)) by (rewrite <- F8; apply fl_mono; lra).
  set (S2 := fl (S1 + C)) in *.
  assert (XS3 : 0 <= S2 + cp) by (rewrite Ep; lra).
  round_step (S2 + cp) XS3 BS3 NS3.
  assert (LS3 : 8 <= fl (S2 + cp)) by (rewrite <- F8; apply fl_mono; rewrite Ep; lra).
  set (S3 := fl (S2 + cp)) in *.
  split; [exact LS3|].
  clearbody a1 A r b1 B C S1 S2 S3.
  rewrite E15 in Ba1. rewrite E30 in BA. rewrite Eq65 in Br.
  rewrite E1 in Bb1. rewrite E25 in BB. rewrite E20 in BC. rewrite Ep in BS3.
  clear - Ba1 BA Br Bb1 BB BC BS1 BS2 BS3 Hn1 Hn2 He1 He2 Ht1 Ht2 Hp Hq.
  set (q := ef / 65) in *. set (ip := inject_Z p) in *. clearbody q ip.
  split; lra.
Qed.

Lemma Zmin_near (a b : Z) :
  (a - 1 <= b <= a + 1)%Z -> (Z.min 100 a - 1 <= Z.min 100 b <= Z.min 100 a + 1)%Z.
Proof. lia. Qed.

End RiskScorer64Facts.

(** ** Facts about the synthesis in binary64 *)

Module Synthesizer64Facts.
Import Rounding.

#[local] Open Scope Q_scope.

Lemma vzip_length (f : Q -> Q -> Q) (a b : list Q) :
  length (vzip f a b) = Nat.min (length a) (length b).
Proof. unfold vzip. now rewrite length_map, length_combine. Qed.


Section Lengths.

Variable np_sin : Q -> Q.
Variable np_pi : Q.
Variable gaussian : Z -> Q.

Lemma linspace64_length (start stop : Q) (num : Z) (l : list Q) :
  linspace64 start stop num = Some l -> length l = Z.to_nat num.
Proof.
  unfold linspace64. destruct (num <? 0)%Z; [discriminate|].
  intros [= <-]. now rewrite length_map, py_range_length.
Qed.

Lemma synthesize64_lengths (sample_rate : Z) (duration : Q) (tp : tape)
      (k k' : nat) (buf : signal_buffer) :
  synthesize64 np_sin np_pi gaussian sample_rate duration tp k = Some (buf, k') ->
  samples buf = sample_count64 sample_rate duration /\
  linspace64 0 duration (samples buf) = Some (t buf) /\
  length (t buf) = Z.to_nat (samples buf) /\
  length (full_signal buf) = Z.to_nat (samples buf).
Proof.
  unfold synthesize64.
  destruct (linspace64 0 duration (sample_count64 sample_rate duration))
    as [ts|] eqn:El; [|discriminate].
  pose proof (linspace64_length _ _ _ _ El) as Hl.
  destruct (Qlt_le_dec (B64.lit 0.6) _);
    intros [= <- <-]; cbn [samples t full_signal]; repeat split; try assumption;
    unfold tone64, after, randn, zeros;
    rewrite ?vzip_length, ?length_map, ?length_seq, ?repeat_length, ?Hl; lia.
Qed.

Lemma synthesize64_runs (sample_rate : Z) (duration : Q) (tp : tape) (k : nat) :
  (0 <= sample_count64 sample_rate duration)%Z ->
  exists buf k',
    synthesize64 np_sin np_pi gaussian sample_rate duration tp k = Some (buf, k').
Proof.
  intros Hn. unfold synthesize64, linspace64.
  destruct (Z.ltb_spec (sample_count64 sample_rate duration) 0) as [Hlt|_]; [lia|].
  destruct (Qlt_le_dec (B64.lit 0.6) _); eexists; eexists; reflexivity.
Qed.

End Lengths.



Lemma linspace64_nth (duration : Q) (n : Z) (l : list Q) (i : nat) :
  fl duration == duration -> 0 < duration -> (0 < n <= 2 ^ 53)%Z ->
  linspace64 0 duration n = Some l -> (i < Z.to_nat n)%nat ->
  nth i l 0 == fl (inject_Z (Z.of_nat i) * fl (duration / inject_Z n)).
Proof.
  intros Dd Hd Hn Hl Hi. unfold linspace64 in Hl.
  destruct (Z.ltb_spec n 0) as [Hneg|_]; [lia|].
  injection Hl as <-.
  set (f := fun i0 : Z => _).
  rewrite nth_indep with (d' := f 0%Z)
    by (rewrite length_map, py_range_length; exact Hi).
  rewrite map_nth, py_range_nth by exact Hi.
  unfold f. clear f.
  unfold B64.sub, B64.div, B64.mul, B64.add, B64.of_int.
  assert (E0 : fl (duration - 0) == duration).
  { rewrite <- Dd at 2. apply fl_comp. ring. }
  assert (En : fl (inject_Z n) == inject_Z n) by (apply fl_Z; lia).
  assert (Ei : fl (inject_Z (Z.of_nat i)) == inject_Z (Z.of_nat i))
    by (apply fl_Z; lia).
  assert (Es : fl (fl (duration - 0) / fl (inject_Z n)) == fl (duration / inject_Z n)).
  { apply fl_comp. apply Qdiv_comp; assumption. }
  assert (Hnq : 0 < inject_Z n)
    by (change 0 with (inject_Z 0); rewrite <- Zlt_Qlt; lia).
  assert (Hs : 0 < fl (duration / inject_Z n)).
  { apply fl_gt0. apply Qlt_shift_div_l; [exact Hnq|]. lra. }
  destruct (Qeq_bool (fl (fl (duration - 0) / fl (inject_Z n))) 0) eqn:Z0.
  - apply Qeq_bool_eq in Z0. rewrite Es in Z0. rewrite Z0 in Hs.
    exfalso. exact (Qlt_irrefl 0 Hs).
  - cbv zeta.
    assert (E1 : fl (inject_Z (Z.of_nat i)) * fl (fl (duration - 0) / fl (inject_Z n))
                 == inject_Z (Z.of_nat i) * fl (duration / inject_Z n)).
    { rewrite Ei, Es. reflexivity. }
    rewrite (fl_comp _ _ E1).
    assert (E2 : fl (inject_Z (Z.of_nat i) * fl (duration / inject_Z n)) + 0
                 == fl (inject_Z (Z.of_nat i) * fl (duration / inject_Z n))) by ring.
    rewrite (fl_comp _ _ E2). apply fl_idem.
Qed.

Lemma sample_count64_whole (sample_rate : Z) (duration : Q) (n : Z) :
  (0 < sample_rate <= 2 ^ 53)%Z -> (0 <= n <= 2 ^ 53)%Z ->
  duration * inject_Z sample_rate == inject_Z n ->
  sample_count64 sample_rate duration = n.
Proof.
  intros Hr Hn E. unfold sample_count64, B64.mul, B64.of_int.
  assert (Er : fl (inject_Z sample_rate) == inject_Z sample_rate)
    by (apply fl_Z; lia).
  assert (E1 : duration * fl (inject_Z sample_rate) == inject_Z n)
    by (rewrite Er; exact E).
  assert (E2 : fl (duration * fl (inject_Z sample_rate)) == inject_Z n).
  { rewrite (fl_comp _ _ E1). apply fl_Z. lia. }
  destruct (fl (duration * fl (inject_Z sample_rate))) as [a d].
  unfold Qeq in E2. simpl in E2. unfold py_int. simpl.
  rewrite Z.mul_1_r in E2. subst a. apply Z.quot_mul. discriminate.
Qed.

(** The [i]-th stamp [fl (i * fl (1/r))] against the exact [i/r]. *)
Lemma stamp_close (r : Q) (i : Z) :
  0 < r -> (0 <= i)%Z ->
  Qabs (fl (inject_Z i * fl (1 / r)) - inject_Z i / r)
    <= (3 # 9007199254740992) * (inject_Z i / r).
Proof.
  intros Hr Hi.
  assert (Hw : 0 <= 1 / r).
  { apply Qle_shift_div_l; [exact Hr | lra]. }
  destruct (fl_bounds _ Hw) as [Ls Us]. pose proof (fl_nonneg _ Hw) as Ns.
  set (s := fl (1 / r)) in *.
  assert (Hiq : 0 <= inject_Z i)
    by (change 0 with (inject_Z 0); rewrite <- Zle_Qle; exact Hi).
  assert (Hx : 0 <= inject_Z i * s) by (apply Qmult_le_0_compat; assumption).
  destruct (fl_bounds _ Hx) as [Lt Ut].
  assert (A : inject_Z i * (1 / r - 1 / r * (1 # 9007199254740992)) <= inject_Z i * s).
  { rewrite !(Qmult_comm (inject_Z i)). apply Qmult_le_compat_r; assumption. }
  assert (B : inject_Z i * s <= inject_Z i * (1 / r + 1 / r * (1 # 9007199254740992))).
  { rewrite !(Qmult_comm (inject_Z i)). apply Qmult_le_compat_r; assumption. }
  assert (Eq : inject_Z i / r == inject_Z i * (1 / r))
    by (field; intros Z0; rewrite Z0 in Hr; exact (Qlt_irrefl 0 Hr)).
  assert (Hq : 0 <= inject_Z i * (1 / r)) by (apply Qmult_le_0_compat; assumption).
  rewrite Eq.
  set (q := inject_Z i * (1 / r)) in *.
  assert (A' : q - q * (1 # 9007199254740992) <= inject_Z i * s)
    by (apply Qle_trans with (inject_Z i * (1 / r - 1 / r * (1 # 9007199254740992)));
        [unfold q; ring_simplify; apply Qle_refl | exact A]).
  assert (B' : inject_Z i * s <= q + q * (1 # 9007199254740992))
    by (apply Qle_trans with (inject_Z i * (1 / r + 1 / r * (1 # 9007199254740992)));
        [exact B | unfold q; ring_simplify; apply Qle_refl]).
  set (x := inject_Z i * s) in *. set (tt := fl x) in *.
  clearbody q x tt.
  apply Qabs_Qle_condition. split; lra.
Qed.

Lemma stamp_increases (s : Q) (i : Z) :
  0 < s -> (0 <= i < 2 ^ 52 - 1)%Z ->
  fl (inject_Z i * s) < fl (inject_Z (i + 1) * s).
Proof.
  intros Hs Hi.
  assert (Hiq : 0 <= inject_Z i)
    by (change 0 with (inject_Z 0); rewrite <- Zle_Qle; lia).
  assert (Hx : 0 <= inject_Z i * s)
    by (apply Qmult_le_0_compat; [exact Hiq | apply Qlt_le_weak; exact Hs]).
  assert (Ey : inject_Z (i + 1) * s == inject_Z i * s + s)
    by (rewrite inject_Z_plus; change (inject_Z 1) with 1; ring).
  rewrite (fl_comp _ _ Ey).
  assert (Hy : 0 <= inject_Z i * s + s) by lra.
  destruct (fl_bounds _ Hx) as [_ U]. destruct (fl_bounds _ Hy) as [L _].
  assert (Hmax : inject_Z i * s <= 4503599627370495 * s).
  { apply Qmult_le_compat_r; [|apply Qlt_le_weak; exact Hs].
    change 4503599627370495 with (inject_Z 4503599627370495).
    rewrite <- Zle_Qle. lia. }
  set (x := inject_Z i * s) in *.
  set (a := fl x) in *. set (b := fl (x + s)) in *. clearbody x a b.
  lra.
Qed.

End Synthesizer64Facts.

(** ** The reveal windows *)

Module StreamerClaims.
Import Streamer StreamerFacts.

(** C8: for every positive sample count the loop shows exactly one hundred
    windows, and their end-indices never decrease: the window of step [i]
    ends no later than the window of any later step [j]. *)
Theorem reveal_windows_non_decreasing (samples : Z) :
  0 < samples ->
  length (windows (scan samples)) = 100%nat /\
  forall i j : nat, (i < j)%nat -> (j < 100)%nat ->
    nth i (windows (scan samples)) 0 <= nth j (windows (scan samples)) 0.
Proof.
  intros Hs. split.
  - rewrite scan_windows, length_map, py_range_length. reflexivity.
  - intros i j Hij Hj.
    rewrite !scan_window_nth by lia.
    apply display_samples_mono; lia.
Qed.

Lemma reveal_windows_non_decreasing_witness :
  0 < 441000 /\
  length (windows (scan 441000)) = 100%nat /\
  forall i j : nat, (i < j)%nat -> (j < 100)%nat ->
    nth i (windows (scan 441000)) 0 <= nth j (windows (scan 441000)) 0.
Proof.
  split; [reflexivity|].
  apply (reveal_windows_non_decreasing 441000). reflexivity.
Defined.

(** C2, as stated, fails: a buffer of 150 samples is revealed in chunks of
    one sample, and the hundredth window ends at index 100. *)
Lemma final_window_short_of_buffer :
  0 < 150 /\ final_window 150 = 100 /\ final_window 150 <> 150.
Proof.
  split; [reflexivity|]. split; [reflexivity|]. discriminate.
Qed.

(** C2, amended: the hundredth window ends at [100 * floor(samples/100)];
    it covers the whole buffer exactly when the sample count is a
    multiple of 100. *)
Theorem final_window_full_iff (samples : Z) :
  0 < samples ->
  final_window samples = 100 * (samples / 100) /\
  (final_window samples = samples <-> samples mod 100 = 0).
Proof.
  intros Hs.
  assert (E : final_window samples = 100 * (samples / 100)).
  { rewrite final_window_value by lia.
    now rewrite Z.quot_div_nonneg by lia. }
  split; [exact E|].
  rewrite E. pose proof (Z.div_mod samples 100 ltac:(lia)) as D.
  split; intros H; lia.
Qed.

Lemma final_window_full_iff_witness :
  0 < 441000 /\
  final_window 441000 = 100 * (441000 / 100) /\
  (final_window 441000 = 441000 <-> 441000 mod 100 = 0).
Proof.
  split; [reflexivity|].
  apply (final_window_full_iff 441000). reflexivity.
Defined.

End StreamerClaims.

(** ** The synthesized buffer *)

Module SynthesizerClaims.

(** C3, as stated, fails when [sampleRate * durationSeconds] is not an
    integer: at 44100 Hz a scan of one millisecond has [int(44.1) = 44]
    samples, not 44.1, and [np.linspace] then spaces them by 1/44000 s
    instead of 1/44100 s. *)
Lemma fractional_sample_count_counterexample :
  0 < 44100 /\ (0 < 1 # 1000)%Q /\
  sample_count 44100 (1 # 1000) = 44 /\
  ~ (inject_Z 44 == (1 # 1000) * inject_Z 44100)%Q /\
  option_map (fun ts => Qred (nth 1 ts 0 - nth 0 ts 0)%Q)
             (linspace 0 (1 # 1000) 44) = Some (1 # 44000)%Q /\
  ~ ((1 # 44000) == 1 / inject_Z 44100)%Q.
Proof.
  repeat split; try reflexivity; intros H; discriminate H.
Qed.

End SynthesizerClaims.

(** ** The synthesized buffer in binary64 *)

Module Synthesizer64Claims.
Import Rounding Synthesizer64Facts.

#[local] Open Scope Q_scope.

(** At 44100 Hz the float 0.7 gives 30869 samples although 0.7 * 44100 is
    30870: the binary64 product falls just below the integer.  The
    kernel's floats give the same count. *)
Lemma rounded_product_loses_a_sample :
  sample_count64 44100 (B64.lit 0.7) = 30869%Z /\
  float_to_Q 0x1.6666666666666p-1%float == B64.lit 0.7 /\
  py_int (float_to_Q (0x1.6666666666666p-1 * 44100)%float) = 30869%Z.
Proof. vm_compute. repeat split. Qed.

(** The script's own time index does not advance by one constant step:
    its stamps 2, 3 and 4 are 2^-67 apart from an even spacing.  The
    kernel's floats give the same stamps. *)
Lemma script_steps_not_constant :
  let step := B64.div 10 (B64.of_int 441000) in
  let stamp := fun i : Z => B64.add (B64.mul (B64.of_int i) step) 0 in
  ~ stamp 3%Z - stamp 2%Z == stamp 4%Z - stamp 3%Z /\
  float_to_Q (3 * (10 / 441000) + 0)%float == stamp 3%Z /\
  float_to_Q (4 * (10 / 441000) + 0)%float == stamp 4%Z.
Proof. vm_compute. repeat split. discriminate. Qed.

(** C3, amended: for a sample rate that is a positive integer (at most
    2^53) and a duration that is a positive binary64 number whose product
    with the rate is a whole number [n] (at most 2^52; every whole number
    of seconds, as the script's own 10 s), synthesis succeeds and returns
    a buffer of exactly [n] samples.  Its time index starts at 0 and is
    strictly increasing; the [i]-th stamp is the rounded product of [i]
    and the rounded [1 / sampleRate], within a relative error of 3 * 2^-53
    of [i / sampleRate]: the step is [1 / sampleRate] up to rounding, not
    exactly constant. *)
Theorem synthesize64_time_index
        (np_sin : Q -> Q) (np_pi : Q) (gaussian : Z -> Q)
        (sample_rate : Z) (duration : Q) (n : Z) (tp : tape) (k : nat) :
  (0 < sample_rate <= 2 ^ 53)%Z ->
  fl duration == duration -> 0 < duration ->
  duration * inject_Z sample_rate == inject_Z n -> (n <= 2 ^ 52)%Z ->
  exists buf k',
    synthesize64 np_sin np_pi gaussian sample_rate duration tp k = Some (buf, k') /\
    time_index64 sample_rate n buf.
Proof.
  intros Hr Dd Hd Hn Hmax.
  assert (Hrq : 0 < inject_Z sample_rate)
    by (change 0 with (inject_Z 0); rewrite <- Zlt_Qlt; lia).
  assert (Hnq : 0 < inject_Z n).
  { rewrite <- Hn. apply Qmult_lt_0_compat; assumption. }
  assert (Hnpos : (0 < n)%Z) by (rewrite Zlt_Qlt; exact Hnq).
  pose proof (sample_count64_whole sample_rate duration n Hr ltac:(lia) Hn) as Hc.
  destruct (synthesize64_runs np_sin np_pi gaussian sample_rate duration tp k)
    as (buf & k' & Hs); [lia|].
  exists buf, k'. split; [exact Hs|].
  destruct (synthesize64_lengths _ _ _ _ _ _ _ _ _ Hs) as (Hsam & Hlin & Hlt & Hlf).
  rewrite Hc in Hsam. rewrite Hsam in Hlin, Hlt, Hlf.
  assert (Hr0 : ~ inject_Z sample_rate == 0)
    by (intros E; rewrite E in Hrq; exact (Qlt_irrefl 0 Hrq)).
  assert (Hd0 : ~ duration == 0)
    by (intros E; rewrite E in Hd; exact (Qlt_irrefl 0 Hd)).
  assert (Estep : duration / inject_Z n == 1 / inject_Z sample_rate).
  { rewrite <- Hn. field. split; assumption. }
  assert (Hnth : forall i : nat, (i < Z.to_nat n)%nat ->
            nth i (t buf) 0
              == fl (inject_Z (Z.of_nat i) * fl (1 / inject_Z sample_rate))).
  { intros i Hi.
    rewrite (linspace64_nth duration n (t buf) i Dd Hd ltac:(lia) Hlin Hi).
    apply fl_comp. rewrite (fl_comp _ _ Estep). reflexivity. }
  assert (Hs0 : 0 < fl (1 / inject_Z sample_rate)).
  { apply fl_gt0. apply Qlt_shift_div_l; [exact Hrq | lra]. }
  unfold time_index64.
  split; [exact Hsam|]. split; [exact Hlf|]. split; [exact Hlt|].
  split; [|split].
  - rewrite Hnth by lia. simpl Z.of_nat.
    assert (E : inject_Z 0 * fl (1 / inject_Z sample_rate) == 0) by ring.
    rewrite (fl_zero _ E). reflexivity.
  - intros i Hi. pose proof (Hnth i Hi) as E. split.
    + unfold B64.mul, B64.div. exact E.
    + rewrite E. apply stamp_close; [exact Hrq | lia].
  - intros i Hi. rewrite !Hnth by lia.
    rewrite Nat2Z.inj_succ. unfold Z.succ.
    apply stamp_increases; [exact Hs0 | lia].
Qed.

Lemma synthesize64_time_index_witness :
  ((0 < 44100 <= 2 ^ 53)%Z /\ fl 10 == 10 /\ 0 < 10 /\
   10 * inject_Z 44100 == inject_Z 441000 /\ (441000 <= 2 ^ 52)%Z) /\
  exists buf k',
    synthesize64 (fun x => x) 3 inject_Z 44100 10 (fun _ => 0%Z) 0 = Some (buf, k') /\
    time_index64 44100 441000 buf.
Proof.
  split.
  - repeat split; discriminate.
  - apply (synthesize64_time_index (fun x => x) 3 inject_Z 44100 10 441000
                                   (fun _ => 0%Z) 0);
      [split | | | |]; reflexivity || discriminate.
Defined.

End Synthesizer64Claims.

(** ** The risk score *)

Module RiskScorerClaims.
Import RiskScorer RiskScorerFacts.

#[local] Open Scope Q_scope.

(** C1, as stated, fails: [np.random.randint(0, 15)] excludes its upper
    end, so no word of the tape makes the random term 15. *)
Lemma perturbation_never_15 : ~ exists w : Z, randint 0 15 w = Some 15%Z.
Proof.
  intros [w H]. apply randint_range in H. lia.
Qed.

(** C1, amended: the values the random term [np.random.randint(0, 15)]
    can take are exactly the integers from 0 through 14. *)
Theorem perturbation_support (v : Z) :
  (exists w : Z, randint 0 15 w = Some v) <-> (0 <= v <= 14)%Z.
Proof.
  split.
  - intros [w H]. apply randint_range in H. lia.
  - intros H. exists (v - 0)%Z. apply randint_onto. lia.
Qed.

(** C5: markers 2.5 / 35 / 0.85 with random term 15 score 73; the
    recommendation is the urgent referral and the metric card reads
    "High Risk".  Each band is a function of the score alone and neither
    determines the other: 65 and 73 share a card but not a recommendation,
    58 and 65 share a recommendation but not a card. *)
Theorem scenario_perturbation_15 :
  risk_score 2.5 35 0.85 15 = 73%Z /\
  recommendation_band (risk_score 2.5 35 0.85 15) = urgent_referral /\
  metric_card_band (risk_score 2.5 35 0.85 15) = "High Risk"%string /\
  (metric_card_band 65 = metric_card_band 73 /\
   recommendation_band 65 <> recommendation_band 73) /\
  (recommendation_band 58 = recommendation_band 65 /\
   metric_card_band 58 <> metric_card_band 65).
Proof.
  assert (E : risk_score 2.5 35 0.85 15 = 73%Z) by reflexivity.
  rewrite E. repeat split; discriminate.
Qed.

(** C6: the same markers with random term 0 score 58; the metric card
    reads "Moderate" and the recommendation is the moderate-suspicion
    one. *)
Theorem scenario_perturbation_0 :
  risk_score 2.5 35 0.85 0 = 58%Z /\
  (40 < risk_score 2.5 35 0.85 0 <= 60)%Z /\
  metric_card_band (risk_score 2.5 35 0.85 0) = "Moderate"%string /\
  (45 < risk_score 2.5 35 0.85 0 <= 70)%Z /\
  recommendation_band (risk_score 2.5 35 0.85 0) = moderate_suspicion.
Proof.
  assert (E : risk_score 2.5 35 0.85 0 = 58%Z) by reflexivity.
  rewrite E. repeat split; discriminate.
Qed.

(** C7: with the other two markers and the random term held fixed, the
    score never decreases when [ncRatio] grows, when
    [1 - ejectionFraction/65] grows, or when [trabeculationScore] grows. *)
Theorem risk_score_monotone (nc nc' ef ef' ts ts' : Q) (p : Z) :
  nc <= nc' -> 1 - ef / 65 <= 1 - ef' / 65 -> ts <= ts' ->
  (risk_score nc ef ts p <= risk_score nc' ef ts p)%Z /\
  (risk_score nc ef ts p <= risk_score nc ef' ts p)%Z /\
  (risk_score nc ef ts p <= risk_score nc ef ts' p)%Z.
Proof.
  intros Hnc Hef Hts. unfold risk_score.
  repeat split; apply Z.min_le_compat_l, py_int_mono, raw_score_mono;
    assumption || apply Qle_refl.
Qed.

Lemma risk_score_monotone_witness :
  (1.5 <= 2.5 /\ 1 - 65 / 65 <= 1 - 35 / 65 /\ 0.4 <= 0.85) /\
  (risk_score 1.5 65 0.4 0 <= risk_score 2.5 65 0.4 0)%Z /\
  (risk_score 1.5 65 0.4 0 <= risk_score 1.5 35 0.4 0)%Z /\
  (risk_score 1.5 65 0.4 0 <= risk_score 1.5 65 0.85 0)%Z.
Proof.
  split.
  - repeat split; discriminate.
  - apply (risk_score_monotone 1.5 2.5 65 35 0.4 0.85 0); discriminate.
Defined.

(** C10: for [ncRatio >= 1.5], [ejectionFraction <= 65],
    [trabeculationScore >= 0.4] and a non-negative random term the
    weighted sum is at least 8, and so is the score: none of the values 0
    to 7 is produced. *)
Theorem risk_score_at_least_8 (nc ef ts : Q) (p : Z) :
  1.5 <= nc -> ef <= 65 -> 0.4 <= ts -> (0 <= p)%Z ->
  8 <= raw_score nc ef ts p /\
  (8 <= risk_score nc ef ts p)%Z /\
  ~ (0 <= risk_score nc ef ts p <= 7)%Z.
Proof.
  intros Hnc Hef Hts Hp.
  pose proof (raw_score_lower nc ef ts p Hnc Hef Hts Hp) as Hraw.
  assert (H8 : (8 <= risk_score nc ef ts p)%Z)
    by (apply clamp_lower; [lia | exact Hraw]).
  repeat split; try assumption. lia.
Qed.

Lemma risk_score_at_least_8_witness :
  (1.5 <= 1.5 /\ 65 <= 65 /\ 0.4 <= 0.4 /\ (0 <= 0)%Z) /\
  8 <= raw_score 1.5 65 0.4 0 /\
  (8 <= risk_score 1.5 65 0.4 0)%Z /\
  ~ (0 <= risk_score 1.5 65 0.4 0 <= 7)%Z.
Proof.
  split.
  - repeat split; discriminate.
  - apply (risk_score_at_least_8 1.5 65 0.4 0); discriminate.
Defined.

End RiskScorerClaims.

(** ** The risk score in binary64 *)

Module RiskScorer64Claims.
Import Rounding RiskScorer64Facts.

#[local] Open Scope Q_scope.

(** C4, as stated, fails: the code rounds every operation.  At the
    markers 2.5 / 65 / 0.49999999999999994 (a binary64 number, inside the
    documented ranges) with random term 1, the sum is rounded up to 41.0
    and the score is 41, shown as "Moderate", while the floor of the exact
    sum is 40, which would be shown as "Low".  The kernel's floats give
    the same 41. *)
Lemma rounding_lifts_score_counterexample :
  (fl 2.5 == 2.5 /\ fl 65 == 65 /\
   fl (9007199254740991 # 18014398509481984)
     == 9007199254740991 # 18014398509481984) /\
  (1.5 <= 2.5 <= 2.8 /\ 35 <= 65 <= 65 /\
   0.4 <= 9007199254740991 # 18014398509481984 <= 0.9) /\
  RiskScorer64.risk_score 2.5 65 (9007199254740991 # 18014398509481984) 1
    = 41%Z /\
  Spec.score 2.5 65 (9007199254740991 # 18014398509481984) 1 = 40%Z /\
  float_to_Q 0x1.fffffffffffffp-2%float
    == 9007199254740991 # 18014398509481984 /\
  py_int (float_to_Q
            (RiskScorer64.raw_score_float 2.5 65 0x1.fffffffffffffp-2 1))
    = 41%Z /\
  RiskScorer.metric_card_band 41 = "Moderate"%string /\
  RiskScorer.metric_card_band 40 = "Low"%string.
Proof. vm_compute. repeat split; discriminate. Qed.

(** C4, amended: for binary64 markers within the documented ranges and a
    random term in [0,15], the computed risk score equals [min(100,
    floor(raw))] where [raw] is the weighted sum as the code evaluates it,
    every operation rounded to binary64; it lies in [0,100]; and it
    differs by at most 1 from [min(100, floor(.))] of the exact sum. *)
Theorem risk_score64_in_range (nc ef ts : Q) (p : Z) :
  fl nc == nc -> fl ef == ef -> fl ts == ts ->
  1.5 <= nc <= 2.8 -> 35 <= ef <= 65 -> 0.4 <= ts <= 0.9 -> (0 <= p <= 15)%Z ->
  RiskScorer64.risk_score nc ef ts p
    = Z.min 100 (Qfloor (RiskScorer64.raw_score nc ef ts p)) /\
  (0 <= RiskScorer64.risk_score nc ef ts p <= 100)%Z /\
  (Spec.score nc ef ts p - 1 <= RiskScorer64.risk_score nc ef ts p
     <= Spec.score nc ef ts p + 1)%Z.
Proof.
  intros _ _ Dts Hnc Hef Hts Hp.
  destruct (raw_score64_bounds nc ef ts p Dts Hnc Hef Hts Hp) as (L & U1 & U2).
  assert (H0 : 0 <= RiskScorer64.raw_score nc ef ts p) by lra.
  unfold RiskScorer64.risk_score. rewrite (py_int_floor _ H0).
  split; [reflexivity|].
  pose proof (Qfloor_resp_le _ _ H0) as Hf. change (Qfloor 0) with 0%Z in Hf.
  split; [lia|].
  unfold Spec.score. apply Zmin_near. apply Qfloor_near; lra.
Qed.

Lemma risk_score64_in_range_witness :
  (fl 2.5 == 2.5 /\ fl 35 == 35 /\ fl 0.75 == 0.75 /\
   1.5 <= 2.5 <= 2.8 /\ 35 <= 35 <= 65 /\ 0.4 <= 0.75 <= 0.9 /\
   (0 <= 15 <= 15)%Z) /\
  RiskScorer64.risk_score 2.5 35 0.75 15
    = Z.min 100 (Qfloor (RiskScorer64.raw_score 2.5 35 0.75 15)) /\
  (0 <= RiskScorer64.risk_score 2.5 35 0.75 15 <= 100)%Z /\
  (Spec.score 2.5 35 0.75 15 - 1 <= RiskScorer64.risk_score 2.5 35 0.75 15
     <= Spec.score 2.5 35 0.75 15 + 1)%Z.
Proof.
  split.
  - repeat split; reflexivity || discriminate.
  - apply (risk_score64_in_range 2.5 35 0.75 15);
      try reflexivity; split; discriminate.
Defined.

End RiskScorer64Claims.

(** ** More about the streaming loop *)

Module StreamerMore.
Import Streamer StreamerFacts Plots.

Lemma py_range_succ (k : Z) : 0 <= k -> py_range (k + 1) = py_range k ++ [k].
Proof.
  intros Hk. unfold py_range.
  replace (Z.to_nat (k + 1)) with (S (Z.to_nat k)) by lia.
  rewrite seq_S, map_app. simpl. now rewrite Z2Nat.id by lia.
Qed.

Lemma run_succ (samples k : Z) :
  0 <= k -> run samples (k + 1) = step samples (run samples k) k.
Proof.
  intros Hk. unfold run. now rewrite py_range_succ, fold_left_app by lia.
Qed.

Lemma run_100 (samples : Z) : run samples 100 = scan samples.
Proof. unfold run, scan. reflexivity. Qed.

(** The loop appends to [spectra] at the steps divisible by 5 only. *)
Lemma fold_step_spectra (samples : Z) (l : list Z) (d : display) :
  spectra (fold_left (step samples) l d) =
  spectra d ++ map (display_samples samples) (filter (fun i => i mod 5 =? 0) l).
Proof.
  revert d. induction l as [|i l IH]; intros d; simpl.
  - now rewrite app_nil_r.
  - rewrite IH. simpl. destruct (i mod 5 =? 0); simpl.
    + now rewrite <- app_assoc.
    + reflexivity.
Qed.

Lemma scan_spectra (samples : Z) :
  spectra (scan samples) =
  map (fun k => display_samples samples (5 * k)) (py_range 20).
Proof.
  unfold scan. rewrite fold_step_spectra.
  change (filter (fun i => i mod 5 =? 0) (py_range 100))
    with (map (Z.mul 5) (py_range 20)).
  now rewrite map_map.
Qed.

Lemma display_samples_closed (samples i : Z) :
  0 <= samples -> 0 <= i < 100 ->
  display_samples samples i = (i + 1) * (samples / 100).
Proof.
  intros Hs Hi. unfold display_samples.
  rewrite chunk_size_quot, Z.quot_div_nonneg by lia.
  pose proof (Z.div_mod samples 100 ltac:(lia)) as D.
  pose proof (Z.mod_pos_bound samples 100 ltac:(lia)) as B.
  pose proof (Z.div_pos samples 100 Hs ltac:(lia)) as Q.
  apply Z.min_l. nia.
Qed.

End StreamerMore.

(** ** Properties of the streaming loop *)

Module StreamerProperties.
Import Streamer StreamerFacts Plots StreamerMore.

(** X1: the loop invariant.  After [k] iterations the progress bar shows
    [k] (it starts at the 0 of line 112), [k] waveform plots have been
    drawn and [ceil(k/5)] spectra have been computed. *)
Theorem loop_invariant (samples k : Z) :
  0 <= k ->
  progress (run samples k) = k /\
  Z.of_nat (length (windows (run samples k))) = k /\
  Z.of_nat (length (spectra (run samples k))) = (k + 4) / 5.
Proof.
  intros Hk. pattern k. apply natlike_ind; [| |exact Hk].
  - unfold run. simpl. repeat split.
  - intros x Hx (IHp & IHw & IHs).
    rewrite <- Z.add_1_r, run_succ by exact Hx.
    unfold step. cbn [progress windows spectra].
    split; [reflexivity|]. split.
    + rewrite length_app. simpl. lia.
    + destruct (Z.eqb_spec (x mod 5) 0) as [E|E].
      * rewrite length_app. simpl.
        rewrite Nat2Z.inj_add, IHs. simpl Z.of_nat.
        Z.div_mod_to_equations. lia.
      * rewrite IHs. Z.div_mod_to_equations. lia.
Qed.

Lemma loop_invariant_witness :
  0 <= 7 /\
  progress (run 441000 7) = 7 /\
  Z.of_nat (length (windows (run 441000 7))) = 7 /\
  Z.of_nat (length (spectra (run 441000 7))) = (7 + 4) / 5.
Proof.
  split; [discriminate|]. apply (loop_invariant 441000 7). discriminate.
Defined.

(** X2: the [min] of line 147 never takes effect.  For a non-negative
    sample count the window of step [i] ends at [(i+1) * floor(samples /
    100)], which is inside the buffer. *)
Theorem windows_closed_form (samples : Z) (i : nat) :
  0 <= samples -> (i < 100)%nat ->
  nth i (windows (scan samples)) 0 = (Z.of_nat i + 1) * (samples / 100) /\
  0 <= nth i (windows (scan samples)) 0 <= samples.
Proof.
  intros Hs Hi.
  rewrite scan_window_nth by exact Hi.
  rewrite display_samples_closed by lia.
  split; [reflexivity|].
  pose proof (Z.div_mod samples 100 ltac:(lia)) as D.
  pose proof (Z.mod_pos_bound samples 100 ltac:(lia)) as B.
  pose proof (Z.div_pos samples 100 Hs ltac:(lia)) as Q.
  nia.
Qed.

Lemma windows_closed_form_witness :
  (0 <= 150 /\ (42 < 100)%nat) /\
  nth 42 (windows (scan 150)) 0 = (Z.of_nat 42 + 1) * (150 / 100) /\
  0 <= nth 42 (windows (scan 150)) 0 <= 150.
Proof.
  split.
  - split; [discriminate | repeat constructor].
  - apply (windows_closed_form 150 42); [discriminate | repeat constructor].
Defined.

(** X3: with at least 100 samples every step reveals the same positive
    number of new samples, [floor(samples / 100)], so the end-indices are
    strictly increasing. *)
Theorem windows_grow_by_chunk (samples : Z) (i : nat) :
  100 <= samples -> (S i < 100)%nat ->
  nth (S i) (windows (scan samples)) 0 - nth i (windows (scan samples)) 0
    = samples / 100 /\
  nth i (windows (scan samples)) 0 < nth (S i) (windows (scan samples)) 0.
Proof.
  intros Hs Hi.
  rewrite !scan_window_nth by lia.
  rewrite !display_samples_closed by lia.
  assert (Q : 1 <= samples / 100)
    by (apply Z.div_le_lower_bound; lia).
  split; nia.
Qed.

Lemma windows_grow_by_chunk_witness :
  (100 <= 441000 /\ (S 98 < 100)%nat) /\
  nth (S 98) (windows (scan 441000)) 0 - nth 98 (windows (scan 441000)) 0
    = 441000 / 100 /\
  nth 98 (windows (scan 441000)) 0 < nth (S 98) (windows (scan 441000)) 0.
Proof.
  split.
  - split; [discriminate | repeat constructor].
  - apply (windows_grow_by_chunk 441000 98); [discriminate | repeat constructor].
Defined.

(** X4: a buffer of fewer than 100 samples is never shown.  The chunk size
    truncates to 0, so all one hundred windows, and all the prefixes given
    to [signal.welch], are empty. *)
Theorem short_buffer_never_shown (samples : Z) :
  0 <= samples < 100 ->
  Forall (fun w => w = 0) (windows (scan samples)) /\
  Forall (fun w => w = 0) (spectra (scan samples)).
Proof.
  intros Hs.
  assert (Q : samples / 100 = 0) by (apply Z.div_small; lia).
  assert (D : forall i, 0 <= i < 100 -> display_samples samples i = 0).
  { intros i Hi. rewrite display_samples_closed by lia. rewrite Q. lia. }
  rewrite scan_windows, scan_spectra. split; apply Forall_forall; intros w Hw;
    apply in_map_iff in Hw; destruct Hw as (i & <- & Hi);
    apply in_map_iff in Hi; destruct Hi as (n & <- & Hn);
    apply in_seq in Hn; apply D; simpl in Hn; lia.
Qed.

Lemma short_buffer_never_shown_witness :
  0 <= 99 < 100 /\
  Forall (fun w => w = 0) (windows (scan 99)) /\
  Forall (fun w => w = 0) (spectra (scan 99)).
Proof.
  split; [split; [discriminate | reflexivity]|].
  apply (short_buffer_never_shown 99). split; [discriminate | reflexivity].
Defined.

(** X5: the spectrum is recomputed at the steps 0, 5, ..., 95 and at no
    other: twenty calls of [signal.welch], the [k]-th of them on the
    window that step [5k] shows. *)
Theorem spectra_schedule (samples : Z) :
  length (spectra (scan samples)) = 20%nat /\
  forall k : nat, (k < 20)%nat ->
    nth k (spectra (scan samples)) 0 = nth (5 * k) (windows (scan samples)) 0.
Proof.
  split.
  - rewrite scan_spectra, length_map, py_range_length. reflexivity.
  - intros k Hk. rewrite scan_window_nth by lia.
    rewrite scan_spectra.
    rewrite nth_indep with (d' := display_samples samples (5 * 0))
      by (rewrite length_map, py_range_length; simpl; lia).
    rewrite (map_nth (fun k0 => display_samples samples (5 * k0))).
    rewrite py_range_nth by (simpl; lia).
    f_equal. lia.
Qed.

(** X6: every prefix given to [signal.welch] holds at least the 1024
    samples of one segment exactly when the buffer has at least 102400
    samples; below that the first call, on the window of step 0, gets
    fewer. *)
Theorem spectra_fill_a_segment_iff (samples : Z) :
  0 <= samples ->
  (Forall (fun n => 1024 <= n) (spectra (scan samples)) <-> 102400 <= samples).
Proof.
  intros Hs. rewrite scan_spectra. split.
  - intros H. rewrite Forall_forall in H.
    specialize (H (display_samples samples (5 * 0))).
    rewrite display_samples_closed in H by lia.
    assert (Hin : In ((5 * 0 + 1) * (samples / 100))
                     (map (fun k => display_samples samples (5 * k)) (py_range 20))).
    { rewrite <- (display_samples_closed samples (5 * 0)) by lia.
      apply (in_map (fun k => display_samples samples (5 * k)) (py_range 20) 0).
      left. reflexivity. }
    specialize (H Hin).
    pose proof (Z.div_mod samples 100 ltac:(lia)) as D.
    pose proof (Z.mod_pos_bound samples 100 ltac:(lia)) as B.
    lia.
  - intros H. apply Forall_forall. intros w Hw.
    apply in_map_iff in Hw. destruct Hw as (k & <- & Hk).
    apply in_map_iff in Hk. destruct Hk as (n & <- & Hn).
    apply in_seq in Hn. simpl in Hn.
    rewrite display_samples_closed by lia.
    assert (Q : 1024 <= samples / 100)
      by (apply Z.div_le_lower_bound; lia).
    nia.
Qed.

Lemma spectra_fill_a_segment_iff_witness :
  0 <= 441000 /\
  (Forall (fun n => 1024 <= n) (spectra (scan 441000)) <-> 102400 <= 441000).
Proof.
  split; [discriminate|].
  apply (spectra_fill_a_segment_iff 441000). discriminate.
Defined.

End StreamerProperties.

(** ** More about the synthesized buffer *)

Section SynthesizerMore.

Variable np_sin : Q -> Q.
Variable np_pi : Q.
Variable gaussian : Z -> Q.

Lemma nth_vadd (a b : list Q) (i : nat) :
  (i < length a)%nat -> (i < length b)%nat ->
  nth i (vadd a b) 0%Q = (nth i a 0 + nth i b 0)%Q.
Proof.
  revert b i. induction a as [|x a IH]; intros [|y b] [|i] Ha Hb;
    simpl in *; try lia; try reflexivity.
  apply IH; lia.
Qed.

Lemma nth_vmul (a b : list Q) (i : nat) :
  (i < length a)%nat -> (i < length b)%nat ->
  nth i (vmul a b) 0%Q = (nth i a 0 * nth i b 0)%Q.
Proof.
  revert b i. induction a as [|x a IH]; intros [|y b] [|i] Ha Hb;
    simpl in *; try lia; try reflexivity.
  apply IH; lia.
Qed.

Lemma nth_map_in_range (f : Q -> Q) (a : list Q) (i : nat) :
  (i < length a)%nat -> nth i (map f a) 0%Q = f (nth i a 0%Q).
Proof.
  intros Hi. rewrite nth_indep with (d' := f 0%Q) by (now rewrite length_map).
  apply map_nth.
Qed.

Lemma nth_vscale (c : Q) (a : list Q) (i : nat) :
  (i < length a)%nat -> nth i (vscale c a) 0%Q = (c * nth i a 0)%Q.
Proof. apply nth_map_in_range. Qed.

Lemma nth_tone (f : Q) (a : list Q) (i : nat) :
  (i < length a)%nat ->
  nth i (tone np_sin np_pi f a) 0%Q = np_sin (2 * np_pi * f * nth i a 0)%Q.
Proof. intros Hi. unfold tone. now rewrite nth_map_in_range. Qed.

Lemma nth_after (c : Q) (a : list Q) (i : nat) :
  (i < length a)%nat ->
  nth i (after c a) 0%Q = if Qlt_le_dec c (nth i a 0%Q) then 1%Q else 0%Q.
Proof. intros Hi. unfold after. now rewrite nth_map_in_range. Qed.

Lemma nth_randn (tp : tape) (k : nat) (n : Z) (i : nat) :
  (i < Z.to_nat n)%nat ->
  nth i (randn gaussian tp k n) 0%Q = gaussian (tp (k + i)%nat).
Proof.
  intros Hi. unfold randn.
  rewrite nth_indep with (d' := gaussian (tp 0%nat))
    by (now rewrite length_map, length_seq).
  rewrite (map_nth (fun j => gaussian (tp j))).
  now rewrite seq_nth.
Qed.

Lemma nth_zeros (n : Z) (i : nat) : nth i (zeros n) 0%Q = 0%Q.
Proof.
  unfold zeros. generalize (Z.to_nat n). intros m. revert i.
  induction m as [|m IH]; intros [|i]; simpl; auto.
Qed.

(** The two outcomes of a synthesis, sample by sample. *)
Lemma synthesize_cases (sample_rate : Z) (duration : Q) (tp : tape)
      (k k' : nat) (buf : signal_buffer) :
  synthesize np_sin np_pi gaussian sample_rate duration tp k = Some (buf, k') ->
  let n := Z.to_nat (samples buf) in
  let k1 := (k + n)%nat in
  let base := vscale 0.5 (tone np_sin np_pi 25 (t buf)) in
  let noise := vscale 0.1 (randn gaussian tp k (samples buf)) in
  0 <= samples buf /\
  ((0.6 < random_sample (tp k1))%Q /\ k' = (S k1 + n)%nat /\
   full_signal buf =
   vadd (vadd base noise)
        (vadd (vmul (vscale 0.3 (tone np_sin np_pi 150 (t buf))) (after 5 (t buf)))
              (vmul (vscale 0.2 (randn gaussian tp (S k1) (samples buf)))
                    (after 7 (t buf))))
   \/
   (random_sample (tp k1) <= 0.6)%Q /\ k' = S k1 /\
   full_signal buf = vadd (vadd base noise) (zeros (samples buf))).
Proof.
  unfold synthesize, linspace.
  destruct (Z.ltb_spec (sample_count sample_rate duration) 0) as [Hneg|Hpos];
    [discriminate|].
  destruct (Qlt_le_dec 0.6 _) as [Hab|Hq]; intros [= <- <-]; simpl;
    (split; [exact Hpos|]); [left | right]; repeat split; assumption.
Qed.

(** Base tone plus noise at one sample. *)
Lemma nth_base_plus_noise (tp : tape) (k : nat) (n : Z) (ts : list Q) (i : nat) :
  length ts = Z.to_nat n -> (i < Z.to_nat n)%nat ->
  nth i (vadd (vscale 0.5 (tone np_sin np_pi 25 ts))
              (vscale 0.1 (randn gaussian tp k n))) 0%Q =
  (0.5 * np_sin (2 * np_pi * 25 * nth i ts 0)
   + 0.1 * gaussian (tp (k + i)%nat))%Q.
Proof.
  intros Hl Hi.
  rewrite nth_vadd
    by (rewrite ?vscale_length, ?tone_length, ?randn_length; lia).
  rewrite !nth_vscale by (rewrite ?tone_length, ?randn_length; lia).
  rewrite nth_tone by lia. now rewrite nth_randn.
Qed.

End SynthesizerMore.

(** ** Properties of the synthesized buffer and of its plots *)

Module SynthesizerProperties.
Import Streamer StreamerFacts Plots StreamerMore.

(** X7: what each waveform plot receives.  For a synthesized buffer, the
    [x] and the [y] of the trace of step [i] both have exactly
    [display_samples] entries, and the trace of an earlier step is the
    beginning of the trace of every later step. *)
Theorem wave_trace_prefixes
        (np_sin : Q -> Q) (np_pi : Q) (gaussian : Z -> Q)
        (sample_rate : Z) (duration : Q) (tp : tape) (k k' : nat)
        (buf : signal_buffer) (i j : Z) :
  synthesize np_sin np_pi gaussian sample_rate duration tp k = Some (buf, k') ->
  0 <= i <= j -> j < 100 ->
  length (fst (wave_trace buf i)) = Z.to_nat (display_samples (samples buf) i) /\
  length (snd (wave_trace buf i)) = Z.to_nat (display_samples (samples buf) i) /\
  fst (wave_trace buf i)
    = py_prefix (fst (wave_trace buf j)) (display_samples (samples buf) i) /\
  snd (wave_trace buf i)
    = py_prefix (snd (wave_trace buf j)) (display_samples (samples buf) i).
Proof.
  intros Hs Hij Hj.
  destruct (synthesize_lengths _ _ _ _ _ _ _ _ _ Hs) as (_ & _ & Hlt & Hlf).
  destruct (synthesize_cases _ _ _ _ _ _ _ _ _ Hs) as (Hn & _).
  pose proof (display_samples_mono (samples buf) i j Hn ltac:(lia)) as Hm.
  assert (Hi0 : 0 <= display_samples (samples buf) i).
  { rewrite display_samples_closed by lia.
    pose proof (Z.div_pos (samples buf) 100 Hn ltac:(lia)). nia. }
  assert (Hjn : display_samples (samples buf) j <= samples buf)
    by apply Z.le_min_r.
  unfold wave_trace, py_prefix. cbn [fst snd].
  destruct (Z.ltb_spec (display_samples (samples buf) i) 0) as [Hneg|_]; [lia|].
  destruct (Z.ltb_spec (display_samples (samples buf) j) 0) as [Hneg|_]; [lia|].
  rewrite !length_firstn, !firstn_firstn, Hlt, Hlf.
  repeat split; try lia; f_equal; lia.
Qed.

Lemma wave_trace_prefixes_witness :
  exists buf k',
    synthesize (fun x => x) 3 inject_Z 100 2 (fun _ => 0) 0 = Some (buf, k') /\
    (0 <= 3 <= 7 /\ 7 < 100) /\
    length (fst (wave_trace buf 3)) = Z.to_nat (display_samples (samples buf) 3) /\
    length (snd (wave_trace buf 3)) = Z.to_nat (display_samples (samples buf) 3) /\
    fst (wave_trace buf 3)
      = py_prefix (fst (wave_trace buf 7)) (display_samples (samples buf) 3) /\
    snd (wave_trace buf 3)
      = py_prefix (snd (wave_trace buf 7)) (display_samples (samples buf) 3).
Proof.
  eexists. eexists. split; [reflexivity|].
  split; [repeat split; discriminate|].
  eapply (wave_trace_prefixes (fun x => x) 3 inject_Z 100 2 (fun _ => 0) 0);
    [reflexivity | split; discriminate | reflexivity].
Defined.

(** X10: every time stamp lies inside the scan.  With a positive duration,
    each entry of the time index is at least 0 and strictly below
    [duration]: the end point is left out. *)
Theorem time_index_within_scan
        (np_sin : Q -> Q) (np_pi : Q) (gaussian : Z -> Q)
        (sample_rate : Z) (duration : Q) (tp : tape) (k k' : nat)
        (buf : signal_buffer) (i : nat) :
  synthesize np_sin np_pi gaussian sample_rate duration tp k = Some (buf, k') ->
  (0 < duration)%Q -> (i < Z.to_nat (samples buf))%nat ->
  (0 <= nth i (t buf) 0)%Q /\ (nth i (t buf) 0 < duration)%Q.
Proof.
  intros Hs Hd Hi.
  destruct (synthesize_lengths _ _ _ _ _ _ _ _ _ Hs) as (_ & Hlin & _ & _).
  rewrite (linspace_nth _ _ _ _ _ Hlin Hi).
  set (n := samples buf) in *.
  assert (Hn : (inject_Z 0 < inject_Z n)%Q) by (rewrite <- Zlt_Qlt; lia).
  assert (Hi0 : (inject_Z 0 <= inject_Z (Z.of_nat i))%Q)
    by (rewrite <- Zle_Qle; lia).
  change (inject_Z 0) with 0%Q in Hn, Hi0.
  assert (Hin : (inject_Z (Z.of_nat i) < inject_Z n)%Q)
    by (rewrite <- Zlt_Qlt; lia).
  assert (Hstep : (0 < (duration - 0) / inject_Z n)%Q).
  { apply Qlt_shift_div_l; [exact Hn|]. lra. }
  split.
  - pose proof (Qmult_le_0_compat _ _ Hi0 (Qlt_le_weak _ _ Hstep)). lra.
  - assert (E : (duration ==
                 inject_Z n * ((duration - 0) / inject_Z n))%Q).
    { field. intros Z0. rewrite Z0 in Hn. exact (Qlt_irrefl 0 Hn). }
    rewrite E at 2.
    assert (Hlt : (inject_Z (Z.of_nat i) * ((duration - 0) / inject_Z n)
                   < inject_Z n * ((duration - 0) / inject_Z n))%Q)
      by (apply Qmult_lt_compat_r; assumption).
    lra.
Qed.

Lemma time_index_within_scan_witness :
  exists buf k',
    synthesize (fun x => x) 3 inject_Z 100 2 (fun _ => 0) 0 = Some (buf, k') /\
    ((0 < 2)%Q /\ (199 < Z.to_nat (samples buf))%nat) /\
    (0 <= nth 199 (t buf) 0)%Q /\ (nth 199 (t buf) 0 < 2)%Q.
Proof.
  eexists. eexists. split; [reflexivity|].
  split; [split; [reflexivity | vm_compute; repeat constructor]|].
  eapply (time_index_within_scan (fun x => x) 3 inject_Z 100 2 (fun _ => 0) 0);
    [reflexivity | reflexivity | vm_compute; repeat constructor].
Defined.

(** X11: the quiet outcome.  When the draw of line 131 is at most 0.6 the
    abnormality is all zeros: every sample is the 25 Hz tone at amplitude
    0.5 plus the noise draw of its own index at amplitude 0.1, and the
    synthesis has read [samples + 1] words of the tape. *)
Theorem quiet_scan_is_tone_plus_noise
        (np_sin : Q -> Q) (np_pi : Q) (gaussian : Z -> Q)
        (sample_rate : Z) (duration : Q) (tp : tape) (k k' : nat)
        (buf : signal_buffer) (i : nat) :
  synthesize np_sin np_pi gaussian sample_rate duration tp k = Some (buf, k') ->
  (random_sample (tp (k + Z.to_nat (samples buf))%nat) <= 0.6)%Q ->
  (i < Z.to_nat (samples buf))%nat ->
  k' = (k + Z.to_nat (samples buf) + 1)%nat /\
  (nth i (full_signal buf) 0
   == 0.5 * np_sin (2 * np_pi * 25 * nth i (t buf) 0)
      + 0.1 * gaussian (tp (k + i)%nat))%Q.
Proof.
  intros Hs Hq Hi.
  destruct (synthesize_lengths _ _ _ _ _ _ _ _ _ Hs) as (_ & _ & Hlt & _).
  destruct (synthesize_cases _ _ _ _ _ _ _ _ _ Hs)
    as (_ & [(Hab & _) | (_ & Hk & Hf)]).
  - exfalso. exact (Qlt_irrefl _ (Qlt_le_trans _ _ _ Hab Hq)).
  - split; [lia|]. rewrite Hf.
    rewrite nth_vadd
      by (rewrite ?vadd_length, ?vscale_length, ?tone_length, ?randn_length,
            ?zeros_length; lia).
    rewrite nth_zeros, (nth_base_plus_noise _ _ _ _ _ _ _ _ Hlt Hi).
    ring.
Qed.

Lemma quiet_scan_is_tone_plus_noise_witness :
  exists buf k',
    synthesize (fun x => x) 3 inject_Z 100 2 (fun _ => 0) 0 = Some (buf, k') /\
    ((random_sample 0%Z <= 0.6)%Q /\ (17 < Z.to_nat (samples buf))%nat) /\
    k' = (0 + Z.to_nat (samples buf) + 1)%nat /\
    (nth 17 (full_signal buf) 0
     == 0.5 * (2 * 3 * 25 * nth 17 (t buf) 0) + 0.1 * inject_Z 0%Z)%Q.
Proof.
  eexists. eexists. split; [reflexivity|].
  split; [split; [discriminate | vm_compute; repeat constructor]|].
  eapply (quiet_scan_is_tone_plus_noise
            (fun x => x) 3 inject_Z 100 2 (fun _ => 0) 0);
    [reflexivity | discriminate | vm_compute; repeat constructor].
Defined.

(** X12: the first five seconds never carry the abnormality.  Whichever
    way the draw of line 131 falls, a sample whose time stamp is at most
    5 s is the base tone plus its noise draw and nothing else. *)
Theorem first_five_seconds_unaffected
        (np_sin : Q -> Q) (np_pi : Q) (gaussian : Z -> Q)
        (sample_rate : Z) (duration : Q) (tp : tape) (k k' : nat)
        (buf : signal_buffer) (i : nat) :
  synthesize np_sin np_pi gaussian sample_rate duration tp k = Some (buf, k') ->
  (i < Z.to_nat (samples buf))%nat ->
  (nth i (t buf) 0 <= 5)%Q ->
  (nth i (full_signal buf) 0
   == 0.5 * np_sin (2 * np_pi * 25 * nth i (t buf) 0)
      + 0.1 * gaussian (tp (k + i)%nat))%Q.
Proof.
  intros Hs Hi H5.
  destruct (synthesize_lengths _ _ _ _ _ _ _ _ _ Hs) as (_ & _ & Hlt & _).
  destruct (synthesize_cases _ _ _ _ _ _ _ _ _ Hs)
    as (_ & [(_ & _ & Hf) | (_ & _ & Hf)]); rewrite Hf.
  - rewrite nth_vadd
      by (rewrite ?vadd_length, ?vmul_length, ?vscale_length, ?tone_length,
            ?after_length, ?randn_length; lia).
    rewrite (nth_base_plus_noise _ _ _ _ _ _ _ _ Hlt Hi).
    rewrite nth_vadd
      by (rewrite ?vmul_length, ?vscale_length, ?tone_length, ?after_length,
            ?randn_length; lia).
    rewrite !nth_vmul
      by (rewrite ?vscale_length, ?tone_length, ?after_length, ?randn_length;
          lia).
    rewrite !nth_after by lia.
    destruct (Qlt_le_dec 5 (nth i (t buf) 0%Q)) as [H|_];
      [exfalso; exact (Qlt_irrefl _ (Qlt_le_trans _ _ _ H H5))|].
    destruct (Qlt_le_dec 7 (nth i (t buf) 0%Q)) as [H|_];
      [exfalso; apply (Qlt_irrefl 5%Q);
       apply Qlt_trans with 7%Q; [reflexivity|];
       exact (Qlt_le_trans _ _ _ H H5)|].
    ring.
  - rewrite nth_vadd
      by (rewrite ?vadd_length, ?vscale_length, ?tone_length, ?randn_length,
            ?zeros_length; lia).
    rewrite nth_zeros, (nth_base_plus_noise _ _ _ _ _ _ _ _ Hlt Hi).
    ring.
Qed.

Lemma first_five_seconds_unaffected_witness :
  exists buf k',
    synthesize (fun x => x) 3 inject_Z 10 8 (fun _ => 2 ^ 53 - 1) 0
      = Some (buf, k') /\
    ((41 < Z.to_nat (samples buf))%nat /\ (nth 41 (t buf) 0 <= 5)%Q) /\
    (nth 41 (full_signal buf) 0
     == 0.5 * (2 * 3 * 25 * nth 41 (t buf) 0)
        + 0.1 * inject_Z (2 ^ 53 - 1)%Z)%Q.
Proof.
  eexists. eexists. split; [reflexivity|].
  split; [split; [vm_compute; repeat constructor | discriminate]|].
  eapply (first_five_seconds_unaffected
            (fun x => x) 3 inject_Z 10 8 (fun _ => 2 ^ 53 - 1) 0);
    [reflexivity | vm_compute; repeat constructor | discriminate].
Defined.

(** X13: the abnormal outcome.  When the draw of line 131 exceeds 0.6 the
    synthesis reads [2 * samples + 1] words; a sample stamped after 5 s and
    not after 7 s is base tone plus noise plus the 150 Hz tone at amplitude
    0.3, and a sample stamped after 7 s carries in addition its own second
    noise draw at amplitude 0.2. *)
Theorem abnormal_scan_segments
        (np_sin : Q -> Q) (np_pi : Q) (gaussian : Z -> Q)
        (sample_rate : Z) (duration : Q) (tp : tape) (k k' : nat)
        (buf : signal_buffer) (i : nat) :
  synthesize np_sin np_pi gaussian sample_rate duration tp k = Some (buf, k') ->
  (0.6 < random_sample (tp (k + Z.to_nat (samples buf))%nat))%Q ->
  (i < Z.to_nat (samples buf))%nat ->
  k' = (k + 2 * Z.to_nat (samples buf) + 1)%nat /\
  ((5 < nth i (t buf) 0)%Q -> (nth i (t buf) 0 <= 7)%Q ->
   (nth i (full_signal buf) 0
    == 0.5 * np_sin (2 * np_pi * 25 * nth i (t buf) 0)
       + 0.1 * gaussian (tp (k + i)%nat)
       + 0.3 * np_sin (2 * np_pi * 150 * nth i (t buf) 0))%Q) /\
  ((7 < nth i (t buf) 0)%Q ->
   (nth i (full_signal buf) 0
    == 0.5 * np_sin (2 * np_pi * 25 * nth i (t buf) 0)
       + 0.1 * gaussian (tp (k + i)%nat)
       + 0.3 * np_sin (2 * np_pi * 150 * nth i (t buf) 0)
       + 0.2 * gaussian (tp (k + Z.to_nat (samples buf) + 1 + i)%nat))%Q).
Proof.
  intros Hs Hab Hi.
  destruct (synthesize_lengths _ _ _ _ _ _ _ _ _ Hs) as (_ & _ & Hlt & _).
  destruct (synthesize_cases _ _ _ _ _ _ _ _ _ Hs)
    as (_ & [(_ & Hk & Hf) | (Hq & _)]);
    [|exfalso; exact (Qlt_irrefl _ (Qlt_le_trans _ _ _ Hab Hq))].
  split; [lia|].
  assert (E : nth i (full_signal buf) 0%Q =
              (0.5 * np_sin (2 * np_pi * 25 * nth i (t buf) 0)
               + 0.1 * gaussian (tp (k + i)%nat)
               + (0.3 * np_sin (2 * np_pi * 150 * nth i (t buf) 0)
                  * (if Qlt_le_dec 5 (nth i (t buf) 0%Q) then 1 else 0)
                  + 0.2 * gaussian (tp (S (k + Z.to_nat (samples buf)) + i)%nat)
                    * (if Qlt_le_dec 7 (nth i (t buf) 0%Q) then 1 else 0)))%Q).
  { rewrite Hf.
    rewrite nth_vadd
      by (rewrite ?vadd_length, ?vmul_length, ?vscale_length, ?tone_length,
            ?after_length, ?randn_length; lia).
    rewrite (nth_base_plus_noise _ _ _ _ _ _ _ _ Hlt Hi).
    rewrite nth_vadd
      by (rewrite ?vmul_length, ?vscale_length, ?tone_length, ?after_length,
            ?randn_length; lia).
    rewrite !nth_vmul
      by (rewrite ?vscale_length, ?tone_length, ?after_length, ?randn_length;
          lia).
    rewrite !nth_after by lia.
    rewrite !nth_vscale by (rewrite ?tone_length, ?randn_length; lia).
    rewrite nth_tone by lia. now rewrite nth_randn. }
  replace (k + Z.to_nat (samples buf) + 1 + i)%nat
    with (S (k + Z.to_nat (samples buf)) + i)%nat by lia.
  rewrite E. split.
  - intros H5 H7.
    destruct (Qlt_le_dec 5 (nth i (t buf) 0%Q)) as [_|H];
      [|exfalso; exact (Qlt_irrefl _ (Qlt_le_trans _ _ _ H5 H))].
    destruct (Qlt_le_dec 7 (nth i (t buf) 0%Q)) as [H|_];
      [exfalso; exact (Qlt_irrefl _ (Qlt_le_trans _ _ _ H H7))|].
    ring.
  - intros H7.
    destruct (Qlt_le_dec 7 (nth i (t buf) 0%Q)) as [_|H];
      [|exfalso; exact (Qlt_irrefl _ (Qlt_le_trans _ _ _ H7 H))].
    destruct (Qlt_le_dec 5 (nth i (t buf) 0%Q)) as [_|H];
      [|exfalso; apply (Qlt_irrefl 5%Q);
        apply Qlt_trans with 7%Q; [reflexivity|];
        exact (Qlt_le_trans _ _ _ H7 H)].
    ring.
Qed.

Lemma abnormal_scan_segments_witness :
  exists buf k',
    synthesize (fun x => x) 3 inject_Z 10 8 (fun _ => 2 ^ 53 - 1) 0
      = Some (buf, k') /\
    ((0.6 < random_sample (2 ^ 53 - 1))%Q /\
     (75 < Z.to_nat (samples buf))%nat) /\
    k' = (0 + 2 * Z.to_nat (samples buf) + 1)%nat /\
    ((5 < nth 75 (t buf) 0)%Q -> (nth 75 (t buf) 0 <= 7)%Q ->
     (nth 75 (full_signal buf) 0
      == 0.5 * (2 * 3 * 25 * nth 75 (t buf) 0)
         + 0.1 * inject_Z (2 ^ 53 - 1)
         + 0.3 * (2 * 3 * 150 * nth 75 (t buf) 0))%Q) /\
    ((7 < nth 75 (t buf) 0)%Q ->
     (nth 75 (full_signal buf) 0
      == 0.5 * (2 * 3 * 25 * nth 75 (t buf) 0)
         + 0.1 * inject_Z (2 ^ 53 - 1)
         + 0.3 * (2 * 3 * 150 * nth 75 (t buf) 0)
         + 0.2 * inject_Z (2 ^ 53 - 1))%Q).
Proof.
  eexists. eexists. split; [reflexivity|].
  split; [split; [reflexivity | vm_compute; repeat constructor]|].
  eapply (abnormal_scan_segments
            (fun x => x) 3 inject_Z 10 8 (fun _ => 2 ^ 53 - 1) 0);
    [reflexivity | reflexivity | vm_compute; repeat constructor].
Defined.

End SynthesizerProperties.

(** ** More about the risk score *)

Module RiskScorerMore.
Import RiskScorer RiskScorerFacts.

#[local] Open Scope Q_scope.

Lemma ef_ratio_lower (ef : Q) : 35 <= ef -> 7 # 13 <= ef / 65.
Proof.
  intros H. apply Qle_shift_div_l; [reflexivity|].
  setoid_replace ((7 # 13) * 65) with 35 by reflexivity. exact H.
Qed.

(** In the documented ranges the markers contribute between 8 and 69. *)
Lemma raw_score_upper (nc ef ts : Q) (p : Z) :
  nc <= 2.8 -> 35 <= ef -> ts <= 0.9 ->
  raw_score nc ef ts p < 69 + inject_Z p.
Proof.
  intros Hnc Hef Hts. unfold raw_score.
  pose proof (ef_ratio_lower ef Hef) as Hr.
  set (r := ef / 65) in *. set (q := inject_Z p) in *. lra.
Qed.

Lemma risk_score_uncapped (nc ef ts : Q) (p : Z) :
  1.5 <= nc <= 2.8 -> 35 <= ef <= 65 -> 0.4 <= ts <= 0.9 ->
  (0 <= p <= 31)%Z ->
  risk_score nc ef ts p = Qfloor (raw_score nc ef ts p) /\
  (Qfloor (raw_score nc ef ts p) <= 68 + p)%Z.
Proof.
  intros [Hnc Hnc'] [Hef Hef'] [Hts Hts'] [Hp Hp'].
  pose proof (raw_score_lower nc ef ts p Hnc Hef' Hts Hp) as Hlo.
  pose proof (raw_score_upper nc ef ts p Hnc' Hef Hts') as Hup.
  assert (H0 : 0 <= raw_score nc ef ts p) by lra.
  assert (Hf : (Qfloor (raw_score nc ef ts p) <= 68 + p)%Z).
  { pose proof (Qfloor_le (raw_score nc ef ts p)) as Hfl.
    assert (Hlt : inject_Z (Qfloor (raw_score nc ef ts p)) < inject_Z (69 + p)).
    { rewrite inject_Z_plus. change (inject_Z 69) with 69. lra. }
    rewrite <- Zlt_Qlt in Hlt. lia. }
  split; [|exact Hf].
  unfold risk_score. rewrite (py_int_floor _ H0). lia.
Qed.

(** The card and the recommendation are computed from the score. *)
Lemma analyse_bands (tp : tape) (k k' : nat) (d : diagnosis) :
  analyse tp k = Some (d, k') ->
  card d = metric_card_band (score d) /\
  advice d = recommendation_band (score d).
Proof.
  unfold analyse.
  destruct (randint 0 15 (tp (3 + k)%nat)) as [p|]; [|discriminate].
  intros H. apply (f_equal (option_map fst)) in H.
  cbn [option_map fst] in H. injection H as <-.
  cbn [card advice score]. split; reflexivity.
Qed.

End RiskScorerMore.

(** ** Properties of the risk score and of its bands *)

Module RiskScorerProperties.
Import RiskScorer RiskScorerFacts RiskScorerMore.

#[local] Open Scope Q_scope.

(** X14: the cap at 100 is never reached by markers of the documented
    ranges.  With a random term [p] in [0,15] the weighted sum stays below
    [69 + p], so the score is the truncated sum itself and is at most
    [68 + p]. *)
Theorem cap_not_reached_in_range (nc ef ts : Q) (p : Z) :
  1.5 <= nc <= 2.8 -> 35 <= ef <= 65 -> 0.4 <= ts <= 0.9 ->
  (0 <= p <= 15)%Z ->
  raw_score nc ef ts p < 69 + inject_Z p /\
  risk_score nc ef ts p = py_int (raw_score nc ef ts p) /\
  (risk_score nc ef ts p <= 68 + p)%Z.
Proof.
  intros Hnc Hef Hts Hp.
  destruct (risk_score_uncapped nc ef ts p Hnc Hef Hts ltac:(lia)) as [E Hf].
  split; [apply raw_score_upper; tauto|].
  assert (H0 : 0 <= raw_score nc ef ts p).
  { pose proof (raw_score_lower nc ef ts p) as H.
    apply Qle_trans with 8; [discriminate|]. apply H; tauto || lia. }
  rewrite (py_int_floor _ H0). split; [exact E | rewrite E; exact Hf].
Qed.

Lemma cap_not_reached_in_range_witness :
  (1.5 <= 2.8 <= 2.8 /\ 35 <= 35 <= 65 /\ 0.4 <= 0.9 <= 0.9 /\
   (0 <= 15 <= 15)%Z) /\
  raw_score 2.8 35 0.9 15 < 69 + inject_Z 15 /\
  risk_score 2.8 35 0.9 15 = py_int (raw_score 2.8 35 0.9 15) /\
  (risk_score 2.8 35 0.9 15 <= 68 + 15)%Z.
Proof.
  split.
  - repeat split; discriminate.
  - apply (cap_not_reached_in_range 2.8 35 0.9 15); split; discriminate.
Defined.

(** X16: what the diagnosis step shows, for every state of the random
    source.  It reads four words, the score lies between 8 and 82, and the
    metric card and the recommendation are the bands of that score. *)
Theorem analyse_score_and_bands (tp : tape) (k : nat) :
  exists d : diagnosis,
    analyse tp k = Some (d, (4 + k)%nat) /\
    (8 <= score d <= 82)%Z /\
    card d = metric_card_band (score d) /\
    advice d = recommendation_band (score d).
Proof.
  destruct (analyse_in_range tp k)
    as (d & Hd & Hnc & Hef & Hts & Hp & Hs & Hlo & _).
  exists d. split; [exact Hd|].
  split; [|exact (analyse_bands tp k _ d Hd)].
  split; [exact Hlo|].
  assert (Hp31 : (0 <= perturbation d <= 31)%Z) by lia.
  destruct (risk_score_uncapped _ _ _ _ Hnc Hef Hts Hp31) as [E Hf].
  rewrite Hs, E. lia.
Qed.

(** X17: where the two bands disagree.  The metric card and the
    recommendation name the same level (high with urgent, moderate with
    moderate, low with low) for every score except 41 to 45 and 61 to
    70. *)
Theorem bands_agree_iff (s : Z) :
  (metric_card_band s = "High Risk"%string /\
   recommendation_band s = urgent_referral
   \/ metric_card_band s = "Moderate"%string /\
      recommendation_band s = moderate_suspicion
   \/ metric_card_band s = "Low"%string /\
      recommendation_band s = low_probability)
  <-> ~ ((40 < s <= 45)%Z \/ (60 < s <= 70)%Z).
Proof.
  unfold metric_card_band, recommendation_band.
  destruct (Z.ltb_spec 60 s), (Z.ltb_spec 40 s), (Z.ltb_spec 70 s),
    (Z.ltb_spec 45 s); try lia;
    (split;
     [ intros [[A B] | [[A B] | [A B]]] Hz; try discriminate; lia
     | intros Hz; try (exfalso; apply Hz; lia);
       first [ left; split; reflexivity
             | right; left; split; reflexivity
             | right; right; split; reflexivity ] ]).
Qed.





End RiskScorerProperties.

(** ** Properties of a whole scan *)

Module ScriptProperties.
Import Streamer StreamerFacts RiskScorer RiskScorerFacts RiskScorerMore.

#[local] Open Scope Q_scope.


(** X21: what one button press computes, for every state of the random
    source, in the part of the handler that is modelled (the synthesis,
    the window arithmetic of the loop, and the diagnosis; the calls into
    plotly and [signal.welch] are not).  The synthesis and the diagnosis
    succeed; the buffer has 441000 samples; the loop shows one hundred
    windows, the last of which is the whole buffer; every prefix it hands
    to [signal.welch] has at least 1024 samples; the score lies between 8
    and 82, and the card and the recommendation are the bands of that
    score. *)
Theorem start_scan_outcome
        (np_sin : Q -> Q) (np_pi : Q) (gaussian : Z -> Q) (tp : tape) :
  exists s : session,
    start_scan np_sin np_pi gaussian tp = Some s /\
    samples (buffer s) = 441000%Z /\
    length (full_signal (buffer s)) = Z.to_nat 441000 /\
    length (t (buffer s)) = Z.to_nat 441000 /\
    length (windows (shown s)) = 100%nat /\
    last (windows (shown s)) 0%Z = 441000%Z /\
    Forall (fun n => (1024 <= n)%Z) (spectra (shown s)) /\
    (8 <= score (result s) <= 82)%Z /\
    card (result s) = metric_card_band (score (result s)) /\
    advice (result s) = recommendation_band (score (result s)).
Proof.
  destruct (synthesize_whole_count np_sin np_pi gaussian sample_rate duration
                                   441000 tp 0)
    as (buf & k & Hs & Hsam & _ & Hlf & Hlt & _); try reflexivity.
  destruct (analyse_in_range tp k)
    as (d & Hd & Hnc & Hef & Hts & Hp & Hsc & Hlo & _).
  assert (Hp31 : (0 <= perturbation d <= 31)%Z) by lia.
  destruct (risk_score_uncapped _ _ _ _ Hnc Hef Hts Hp31) as [E Hf].
  destruct (analyse_bands tp k _ d Hd) as [Hcard Hadv].
  unfold start_scan. rewrite Hs, Hd.
  eexists. split; [reflexivity|]. cbn [buffer shown result].
  rewrite Hsam.
  split; [reflexivity|]. split; [exact Hlf|]. split; [exact Hlt|].
  split; [now rewrite scan_windows, length_map, py_range_length|].
  split; [apply script_final_window|].
  split; [apply script_spectra_long_enough|].
  split; [rewrite Hsc, E; lia|].
  split; assumption.
Qed.

End ScriptProperties.
